(** * jump-topic-note: the selection-list modal and the jump orchestrator

    A shallow embedding of [src/selectableItem.ts] (the [SelectableModal]
    picker) and of [src/main.ts] (wikilink parsing, front-matter validation
    and the jump command), followed by the properties established for them.

    Conventions.
    - JavaScript numbers used as indices are integers here ([Z]); array
      positions handed out by [forEach] are [nat].
    - JavaScript strings are [string]: sequences of 8-bit code units.  In this
      range the line terminators excluded by the regular-expression dot are
      LF and CR.
    - A method that mutates [this] is a function from the object to the
      object.  Calls of the selection callback are recorded, in order, in the
      [calls] field of the modal.
    - The side effects of the plugin (notices, console output, link
      resolution, opening a file) are returned as a list, in program order;
      an exception that leaves the command uncaught is the last of them. *)

From Stdlib Require Import ZArith String Ascii List Bool Lia.
From stdpp Require Import base list strings gmap.
Import ListNotations.

Open Scope string_scope.
Open Scope Z_scope.

(* ===================================================================== *)
(** * JavaScript string primitives used by the plugin                     *)
(* ===================================================================== *)

Module JS.

(** [s.length] *)
Definition len (s : string) : Z := Z.of_nat (String.length s).

Definition clamp (lo hi x : Z) : Z := Z.max lo (Z.min x hi).

(** [s.substring(start, stop)]: both arguments are clamped to
    [0 .. s.length] and swapped when [start > stop]. *)
Definition substring (s : string) (start stop : Z) : string :=
  let a := clamp 0 (len s) start in
  let b := clamp 0 (len s) stop in
  let from := Z.min a b in
  let to := Z.max a b in
  String.substring (Z.to_nat from) (Z.to_nat (to - from)) s.

(** [s.substring(start)] *)
Definition substring_from (s : string) (start : Z) : string :=
  substring s start (len s).

(** [s.split(sep)] for a separator of one code unit.  The result is never
    empty: [split sep ""] is the list holding the empty string. *)
Fixpoint split (sep : ascii) (s : string) : list string :=
  match s with
  | EmptyString => [EmptyString]
  | String c s' =>
      if Ascii.eqb c sep then EmptyString :: split sep s'
      else match split sep s' with
           | [] => [String c EmptyString]
           | p :: ps => String c p :: ps
           end
  end.

(** [parts[i]] on an array of strings, where the program only reads
    positions that exist. *)
Definition at_ (parts : list string) (i : nat) : string :=
  default EmptyString (parts !! i).

Fixpoint lastIndexOf_from (c : ascii) (s : string) (pos found : Z) : Z :=
  match s with
  | EmptyString => found
  | String a s' =>
      lastIndexOf_from c s' (pos + 1) (if Ascii.eqb a c then pos else found)
  end.

(** [s.lastIndexOf(c)] for a one-unit needle: the last position of [c], or
    [-1]. *)
Definition lastIndexOf (c : ascii) (s : string) : Z :=
  lastIndexOf_from c s 0 (-1).

(** Line terminators, the code units the dot of a regular expression does
    not match. *)
Definition is_line_terminator (c : ascii) : bool :=
  Ascii.eqb c "010"%char || Ascii.eqb c "013"%char.

End JS.

(* ===================================================================== *)
(** * Regular expressions                                                 *)
(* ===================================================================== *)

(** Enough of the regular-expression language for the pattern of
    [executeJumpLogic]; matching is by derivatives.  [RegExp.test] on a
    pattern anchored by [^] and [$] (no flags) succeeds exactly when the whole
    string matches, so a lazy quantifier accepts what the greedy one does. *)
Module Regex.

Inductive regex : Type :=
| Void
| Eps
| Cls (p : ascii -> bool)
| Cat (r1 r2 : regex)
| Alt (r1 r2 : regex)
| Star (r : regex).

Definition Chr (c : ascii) : regex := Cls (Ascii.eqb c).
Definition Dot : regex := Cls (fun c => negb (JS.is_line_terminator c)).
Definition Plus (r : regex) : regex := Cat r (Star r).
Definition Opt (r : regex) : regex := Alt Eps r.

Fixpoint nullable (r : regex) : bool :=
  match r with
  | Void => false
  | Eps => true
  | Cls _ => false
  | Cat r1 r2 => nullable r1 && nullable r2
  | Alt r1 r2 => nullable r1 || nullable r2
  | Star _ => true
  end.

Fixpoint deriv (c : ascii) (r : regex) : regex :=
  match r with
  | Void => Void
  | Eps => Void
  | Cls p => if p c then Eps else Void
  | Cat r1 r2 =>
      if nullable r1 then Alt (Cat (deriv c r1) r2) (deriv c r2)
      else Cat (deriv c r1) r2
  | Alt r1 r2 => Alt (deriv c r1) (deriv c r2)
  | Star r1 => Cat (deriv c r1) (Star r1)
  end.

(** [^r$] tested against [s] *)
Fixpoint test (r : regex) (s : string) : bool :=
  match s with
  | EmptyString => nullable r
  | String c s' => test (deriv c r) s'
  end.

(** Words of a regular expression, the reference for [test]. *)
Inductive lang : regex -> string -> Prop :=
| lang_eps : lang Eps EmptyString
| lang_cls p c : p c = true -> lang (Cls p) (String c EmptyString)
| lang_cat r1 r2 s1 s2 : lang r1 s1 -> lang r2 s2 -> lang (Cat r1 r2) (s1 +:+ s2)
| lang_alt_l r1 r2 s : lang r1 s -> lang (Alt r1 r2) s
| lang_alt_r r1 r2 s : lang r2 s -> lang (Alt r1 r2) s
| lang_star_nil r : lang (Star r) EmptyString
| lang_star_cons r s1 s2 : lang r s1 -> lang (Star r) s2 -> lang (Star r) (s1 +:+ s2).

(** Every character class of [r] only holds code units satisfying [q]. *)
Fixpoint classes_within (q : ascii -> bool) (r : regex) : Prop :=
  match r with
  | Void | Eps => True
  | Cls p => forall c, p c = true -> q c = true
  | Cat r1 r2 | Alt r1 r2 => classes_within q r1 /\ classes_within q r2
  | Star r1 => classes_within q r1
  end.

End Regex.

(** All code units of [s] satisfy [q]. *)
Fixpoint all_units (q : ascii -> bool) (s : string) : bool :=
  match s with
  | EmptyString => true
  | String c s' => q c && all_units q s'
  end.

(** [c] does not occur in [s]. *)
Definition free_of (c : ascii) (s : string) : bool :=
  all_units (fun a => negb (Ascii.eqb a c)) s.

(* ===================================================================== *)
(** * src/selectableItem.ts                                               *)
(* ===================================================================== *)

Module selectableItem.

(** [interface SelectableItem { name: string; [key: string]: any }] *)
Class SelectableItem (T : Type) := { name : T -> string }.

(** A row of the list, a [div.selectable-item].  [is_focused] is the
    ["is-focused"] class; [boundIndex] is the [index] captured by the three
    listeners that [onOpen] attaches to the row. *)
Record HTMLElement := mkEl {
  textContent : string;
  tabIndex : Z;
  is_focused : bool;
  boundIndex : nat
}.

(** [class SelectableModal<T> extends Modal].  [titleEl] is the [h4] of
    [contentEl]; the rows of [contentEl] are the elements of [itemElements].
    [isOpen] is the state of the host's [Modal]; [calls] lists the arguments
    of the calls of [callback] made so far. *)
Record SelectableModal (T E : Type) := mkModal {
  items : list T;
  callback : T -> list E;
  modalTitle : string;
  activeIndex : Z;
  hoveredIndex : option Z;
  itemElements : list HTMLElement;
  titleEl : option string;
  isOpen : bool;
  calls : list T
}.
Arguments mkModal {T E}.
Arguments items {T E}.
Arguments callback {T E}.
Arguments modalTitle {T E}.
Arguments activeIndex {T E}.
Arguments hoveredIndex {T E}.
Arguments itemElements {T E}.
Arguments titleEl {T E}.
Arguments isOpen {T E}.
Arguments calls {T E}.

Inductive Key := ArrowUp | ArrowDown | Enter | Escape.

(** What the user can do to a modal: press one of the registered keys, or
    click, enter or leave the row shown at position [row]. *)
Inductive Event :=
| KeyDown (k : Key)
| Click (row : nat)
| MouseOver (row : nat)
| MouseLeave (row : nat).

Section Methods.
Context {T E : Type} `{SelectableItem T}.
Abbreviation Modal := (SelectableModal T E).

Definition set_activeIndex (v : Z) (m : Modal) : Modal :=
  mkModal (items m) (callback m) (modalTitle m) v (hoveredIndex m)
          (itemElements m) (titleEl m) (isOpen m) (calls m).

Definition set_hoveredIndex (v : option Z) (m : Modal) : Modal :=
  mkModal (items m) (callback m) (modalTitle m) (activeIndex m) v
          (itemElements m) (titleEl m) (isOpen m) (calls m).

Definition set_itemElements (v : list HTMLElement) (m : Modal) : Modal :=
  mkModal (items m) (callback m) (modalTitle m) (activeIndex m)
          (hoveredIndex m) v (titleEl m) (isOpen m) (calls m).

Definition set_titleEl (v : option string) (m : Modal) : Modal :=
  mkModal (items m) (callback m) (modalTitle m) (activeIndex m)
          (hoveredIndex m) (itemElements m) v (isOpen m) (calls m).

Definition set_isOpen (v : bool) (m : Modal) : Modal :=
  mkModal (items m) (callback m) (modalTitle m) (activeIndex m)
          (hoveredIndex m) (itemElements m) (titleEl m) v (calls m).

Definition set_calls (v : list T) (m : Modal) : Modal :=
  mkModal (items m) (callback m) (modalTitle m) (activeIndex m)
          (hoveredIndex m) (itemElements m) (titleEl m) (isOpen m) v.

(** [constructor(app, items, callback, modalTitle)]; the field
    initialisers give [activeIndex = 0], [hoveredIndex = null] and no
    item elements.  The constructor also registers the Escape key. *)
Definition new (items0 : list T) (callback0 : T -> list E)
    (modalTitle0 : string) : Modal :=
  mkModal items0 callback0 modalTitle0 0 None [] None false [].

Definition set_focused (b : bool) (el : HTMLElement) : HTMLElement :=
  mkEl (textContent el) (tabIndex el) b (boundIndex el).

(** [focusItem(index?)]: [index ?? -1], then the class is added to the
    row at that position and removed from every other row.  The row that
    gets the class also gets the DOM focus, which nothing in the class reads
    back. *)
Definition focusItem (index : option Z) (m : Modal) : Modal :=
  let index := default (-1) index in
  set_itemElements
    (imap (fun i el => set_focused (Z.of_nat i =? index) el) (itemElements m))
    m.

(** [onClose()] *)
Definition onClose (m : Modal) : Modal :=
  set_hoveredIndex None (set_itemElements [] (set_titleEl None m)).

(** [Modal.close()] of the host: the modal leaves the screen and
    [onClose] runs. *)
Definition close (m : Modal) : Modal :=
  onClose (set_isOpen false m).

(** [selectItem(index)] *)
Definition selectItem (index : Z) (m : Modal) : Modal :=
  if (index >=? 0) && (index <? Z.of_nat (length (items m))) then
    match items m !! Z.to_nat index with
    | Some item => close (set_calls (calls m ++ [item]) m)
    | None => m
    end
  else m.

(** [handleMouseOver(index)] *)
Definition handleMouseOver (index : Z) (m : Modal) : Modal :=
  focusItem (Some index) (set_hoveredIndex (Some index) m).

(** [handleMouseLeave()] *)
Definition handleMouseLeave (m : Modal) : Modal :=
  focusItem None (set_hoveredIndex None m).

(** [navigateItems(direction)] *)
Definition navigateItems (direction : Z) (m : Modal) : Modal :=
  if (length (itemElements m) =? 0)%nat then m
  else
    let m1 :=
      match hoveredIndex m with
      | Some h => set_hoveredIndex None (set_activeIndex h m)
      | None => m
      end in
    let newIndex := activeIndex m1 + direction in
    let n := Z.of_nat (length (itemElements m1)) in
    let m2 :=
      if newIndex <? 0 then set_activeIndex (n - 1) m1
      else if newIndex >=? n then set_activeIndex 0 m1
      else set_activeIndex newIndex m1 in
    focusItem (Some (activeIndex m2)) m2.

(** [onOpen()]: the title, one row per item with its listeners, focus on
    the first row when there is one; the arrow keys and Enter are
    registered. *)
Definition onOpen (m : Modal) : Modal :=
  let m1 := set_titleEl (Some (modalTitle m)) m in
  let m2 :=
    set_itemElements
      (imap (fun index item => mkEl (name item) 0 false index) (items m1))
      m1 in
  if (0 <? length (itemElements m2))%nat then
    let m3 := set_activeIndex 0 m2 in
    focusItem (Some (activeIndex m3)) m3
  else m2.

(** [Modal.open()] of the host: the modal is shown and [onOpen] runs. *)
Definition open (m : Modal) : Modal :=
  onOpen (set_isOpen true m).

(** The listeners of a row, each closed over the row's [index]. *)
Definition click (el : HTMLElement) (m : Modal) : Modal :=
  selectItem (Z.of_nat (boundIndex el)) m.

Definition mouseover (el : HTMLElement) (m : Modal) : Modal :=
  handleMouseOver (Z.of_nat (boundIndex el)) m.

Definition mouseleave (el : HTMLElement) (m : Modal) : Modal :=
  handleMouseLeave m.

(** The handlers registered on the modal's key scope. *)
Definition keydown (k : Key) (m : Modal) : Modal :=
  match k with
  | Escape => close m
  | ArrowUp => navigateItems (-1) m
  | ArrowDown => navigateItems 1 m
  | Enter =>
      if (activeIndex m >=? 0)
         && (activeIndex m <? Z.of_nat (length (itemElements m))) then
        match itemElements m !! Z.to_nat (activeIndex m) with
        | Some el => click el m
        | None => m
        end
      else m
  end.

(** A pointer event reaches the row displayed at [row]; when no such row
    is displayed there is nothing to click or hover. *)
Definition on_row (row : nat) (h : HTMLElement -> Modal -> Modal)
    (m : Modal) : Modal :=
  match itemElements m !! row with
  | Some el => h el m
  | None => m
  end.

Definition dispatch (m : Modal) (ev : Event) : Modal :=
  match ev with
  | KeyDown k => keydown k m
  | Click row => on_row row click m
  | MouseOver row => on_row row mouseover m
  | MouseLeave row => on_row row mouseleave m
  end.

(** A session: the events handled one after the other. *)
Definition run (evs : list Event) (m : Modal) : Modal :=
  fold_left dispatch evs m.

Fixpoint focused_from (i : nat) (els : list HTMLElement) : list nat :=
  match els with
  | [] => []
  | el :: rest =>
      if is_focused el then i :: focused_from (S i) rest
      else focused_from (S i) rest
  end.

(** The positions of the rows rendered as highlighted. *)
Definition highlighted (m : Modal) : list nat :=
  focused_from 0 (itemElements m).

End Methods.

(** The inputs of the state machine that move or set the highlight. *)
Definition is_highlight_event (ev : Event) : bool :=
  match ev with
  | KeyDown ArrowUp | KeyDown ArrowDown | MouseOver _ | MouseLeave _ => true
  | _ => false
  end.

End selectableItem.


(* ===================================================================== *)
(** * src/main.ts                                                         *)
(* ===================================================================== *)

Module main.

(** A value read from the front matter of a note.  Of a number only the fact
    that it is not a string matters to the plugin.  [JObject] is a mapping
    with its own fields.  [JInherited key] is the member [key] that every
    plain object inherits from [Object.prototype]: a built-in function, or
    the prototype itself for [__proto__]; it is never a field of a note. *)
#[warnings="-register-all"]
Inductive JSValue : Type :=
| JUndefined
| JNull
| JBoolean (b : bool)
| JNumber (n : Z)
| JString (s : string)
| JArray (elements : list JSValue)
| JObject (fields : list (string * JSValue))
| JInherited (key : string).

(** Whether converting the value to a string, as a template literal does,
    throws a [TypeError].  A mapping converts through its [toString]: the
    inherited one gives ["[object Object]"], but an own field [toString]
    hides it and, being data, cannot be called, and [valueOf] never returns
    a primitive for a mapping.  A list converts by joining the conversions of
    its elements. *)
Fixpoint string_conversion_throws (v : JSValue) : bool :=
  match v with
  | JArray elements => existsb string_conversion_throws elements
  | JObject fields =>
      existsb (fun field => String.eqb (fst field) "toString") fields
  | _ => false
  end.

Record JumpTopicNoteSettings := { topicProperty : string }.

Definition DEFAULT_SETTINGS : JumpTopicNoteSettings :=
  {| topicProperty := "parents" |}.

(** [interface ParentTopicItem extends SelectableItem] *)
Record ParentTopicItem := { name : string; linkText : string }.

#[export] Instance ParentTopicItem_selectable :
  selectableItem.SelectableItem ParentTopicItem :=
  {| selectableItem.name := name |}.

(** The host: the part of Obsidian's [App] that the plugin calls.
    [openFile f] is [true] when the promise of [openFile] resolves and
    [false] when it rejects. *)
Record TFile := { path : string; basename : string }.

Record CachedMetadata := { frontmatter : option (gmap string JSValue) }.

Record App := {
  getActiveFile : option TFile;
  getFileCache : TFile -> option CachedMetadata;
  getFirstLinkpathDest : string -> string -> option TFile;
  openFile : TFile -> bool
}.

(** [new Notice(...)], one constructor per message of the source. *)
Inductive NoticeMsg :=
| NoticeNotAList (key fileBasename : string)
| NoticeInvalidEntries (key : string)
| NoticeTargetMissing (internalPath : string)
| NoticeOpenFailed (link : string).

(** [console.error(...)], one constructor per message of the source. *)
Inductive LogMsg :=
| LogNotAList (key filePath : string) (found : JSValue)
| LogInvalidEntry (key : string) (item : JSValue) (fileBasename : string)
| LogTargetMissing (link internalPath sourcePath : string)
| LogOpenFailed.

Inductive JSError := TypeError.

(** [Uncaught e]: the command stops with the exception [e], which nothing in
    the plugin catches; it is the last effect of a run. *)
Inductive Effect :=
| Notice (msg : NoticeMsg)
| ConsoleError (msg : LogMsg)
| Resolve (internalPath sourcePath : string)
| OpenFile (file : TFile)
| Uncaught (e : JSError).

(** The names of the members of [Object.prototype]. *)
Definition object_prototype_keys : list string :=
  [ "constructor"; "hasOwnProperty"; "isPrototypeOf"; "propertyIsEnumerable";
    "toLocaleString"; "toString"; "valueOf"; "__proto__";
    "__defineGetter__"; "__defineSetter__";
    "__lookupGetter__"; "__lookupSetter__" ].

Definition is_inherited_key (key : string) : bool :=
  existsb (String.eqb key) object_prototype_keys.

(** [frontmatter[key]]: the field of the front matter if it has one of that
    name, else the member inherited from [Object.prototype] if there is one,
    else [undefined]. *)
Definition prop (fm : gmap string JSValue) (key : string) : JSValue :=
  match fm !! key with
  | Some v => v
  | None => if is_inherited_key key then JInherited key else JUndefined
  end.

(** [/^\[\[.+?\]\]$/] *)
Definition wikilinkPattern : Regex.regex :=
  Regex.Cat (Regex.Chr "[")
    (Regex.Cat (Regex.Chr "[")
       (Regex.Cat (Regex.Plus Regex.Dot)
          (Regex.Cat (Regex.Chr "]") (Regex.Chr "]")))).

(** [typeof item === "string" && /^\[\[.+?\]\]$/.test(item)] *)
Definition isWikilinkEntry (item : JSValue) : bool :=
  match item with
  | JString s => Regex.test wikilinkPattern s
  | _ => false
  end.

Definition extractDisplayNameFromWikilink (wikilink : string) : string :=
  let bareLink := JS.substring wikilink 2 (JS.len wikilink - 2) in
  let parts := JS.split "|" bareLink in
  let mainPart :=
    if (1 <? length parts)%nat then JS.at_ parts 1 else JS.at_ parts 0 in
  let lastSlashIndex := JS.lastIndexOf "/" mainPart in
  if lastSlashIndex =? -1 then mainPart
  else JS.substring_from mainPart (lastSlashIndex + 1).

Definition extractInternalPathFromWikilink (wikilink : string) : string :=
  let bareLink := JS.substring wikilink 2 (JS.len wikilink - 2) in
  let parts := JS.split "|" bareLink in
  let linkPath := JS.at_ parts 0 in
  let linkPath := JS.at_ (JS.split "#" linkPath) 0 in
  let linkPath := JS.at_ (JS.split "^" linkPath) 0 in
  linkPath.

Definition navigateToLink (app : App) (link sourcePath : string)
    : list Effect :=
  let internalPath := extractInternalPathFromWikilink link in
  Resolve internalPath sourcePath ::
  match getFirstLinkpathDest app internalPath sourcePath with
  | None =>
      [ Notice (NoticeTargetMissing internalPath);
        ConsoleError (LogTargetMissing link internalPath sourcePath) ]
  | Some targetFile =>
      OpenFile targetFile ::
      (if openFile app targetFile then []
       else [ Notice (NoticeOpenFailed link); ConsoleError LogOpenFailed ])
  end.

(** The state of the [for ... of parentsList] loop; [thrown] holds once an
    exception has ended the loop. *)
Record Scan := mkScan {
  validWikilinks : list string;
  invalidEntriesFound : bool;
  logged : list Effect;
  thrown : bool
}.

(** One turn of the loop.  For an invalid entry the flag is set and the
    console message is built with [${item}]: when that conversion throws,
    the exception leaves the loop and the command. *)
Definition scan_item (key fileBasename : string) (acc : Scan) (item : JSValue)
    : Scan :=
  if thrown acc then acc
  else
    let invalid :=
      if string_conversion_throws item then
        mkScan (validWikilinks acc) true (logged acc ++ [Uncaught TypeError]) true
      else
        mkScan (validWikilinks acc) true
               (logged acc
                ++ [ConsoleError (LogInvalidEntry key item fileBasename)])
               false in
    match item with
    | JString s =>
        if Regex.test wikilinkPattern s then
          mkScan (validWikilinks acc ++ [s]) (invalidEntriesFound acc)
                 (logged acc) false
        else invalid
    | _ => invalid
    end.

Definition scan (key fileBasename : string) (parentsList : list JSValue) : Scan :=
  fold_left (scan_item key fileBasename) parentsList (mkScan [] false [] false).

(** What one run of the command did: its effects, and the modal it left
    open, if any. *)
Record Outcome := mkOutcome {
  effects : list Effect;
  picker : option (selectableItem.SelectableModal ParentTopicItem Effect)
}.

Definition nothing : Outcome := mkOutcome [] None.

Definition executeJumpLogic (app : App) (settings : JumpTopicNoteSettings)
    : Outcome :=
  match getActiveFile app with
  | None => nothing
  | Some activeFile =>
  match getFileCache app activeFile with
  | None => nothing
  | Some fileCache =>
  match frontmatter fileCache with
  | None => nothing
  | Some fm =>
      let topicPropertyKey := topicProperty settings in
      match prop fm topicPropertyKey with
      | JUndefined | JNull => nothing
      | JArray parentsList =>
          if (length parentsList =? 0)%nat then nothing
          else
            let sc := scan topicPropertyKey (basename activeFile) parentsList in
            if thrown sc then mkOutcome (logged sc) None
            else if invalidEntriesFound sc then
              mkOutcome
                (logged sc ++ [Notice (NoticeInvalidEntries topicPropertyKey)])
                None
            else if (length (validWikilinks sc) =? 0)%nat then
              mkOutcome (logged sc) None
            else if (length (validWikilinks sc) =? 1)%nat then
              mkOutcome
                (logged sc ++
                 navigateToLink app (JS.at_ (validWikilinks sc) 0) (path activeFile))
                None
            else if (1 <? length (validWikilinks sc))%nat then
              let modalItems :=
                map (fun link =>
                       {| name := extractDisplayNameFromWikilink link;
                          linkText := link |})
                    (validWikilinks sc) in
              mkOutcome
                (logged sc)
                (Some
                   (selectableItem.open
                      (selectableItem.new modalItems
                         (fun selectedItem =>
                            navigateToLink app (linkText selectedItem)
                                           (path activeFile))
                         "Select superior topic note")))
            else mkOutcome (logged sc) None
      | rawParentsEntry =>
          mkOutcome
            [ Notice (NoticeNotAList topicPropertyKey (basename activeFile));
              ConsoleError
                (LogNotAList topicPropertyKey (path activeFile) rawParentsEntry) ]
            None
      end
  end end end.

(** Observations on a list of effects. *)
Definition is_notice (e : Effect) : bool :=
  match e with Notice _ => true | _ => false end.

Definition is_navigation (e : Effect) : bool :=
  match e with Resolve _ _ | OpenFile _ => true | _ => false end.

Definition notices (es : list Effect) : list Effect :=
  List.filter is_notice es.

Definition navigations (es : list Effect) : list Effect :=
  List.filter is_navigation es.

End main.

(* ===================================================================== *)
(** * The link-reference surface syntax, as the specification words it    *)
(* ===================================================================== *)

(** [[[<path>(#heading)?(^block)?(|<alias>)?]]]: a path, then an optional
    heading anchor, an optional block anchor and an optional alias, each
    introduced by its delimiter, the whole between one pair of double
    brackets.  No part holds a bracket or a line terminator, and a part ends
    where the delimiter of a later part begins. *)
Module Surface.

Definition unit_outside (excluded : list ascii) (c : ascii) : bool :=
  negb (JS.is_line_terminator c)
  && forallb (fun x => negb (Ascii.eqb c x)) excluded.

Definition path_unit := unit_outside ["["; "]"; "|"; "#"; "^"]%char.
Definition heading_unit := unit_outside ["["; "]"; "|"; "^"]%char.
Definition block_unit := unit_outside ["["; "]"; "|"]%char.
Definition alias_unit := unit_outside ["["; "]"]%char.

Definition link_reference : Regex.regex :=
  Regex.Cat (Regex.Chr "[")
    (Regex.Cat (Regex.Chr "[")
       (Regex.Cat (Regex.Plus (Regex.Cls path_unit))
          (Regex.Cat
             (Regex.Opt (Regex.Cat (Regex.Chr "#") (Regex.Star (Regex.Cls heading_unit))))
             (Regex.Cat
                (Regex.Opt (Regex.Cat (Regex.Chr "^") (Regex.Star (Regex.Cls block_unit))))
                (Regex.Cat
                   (Regex.Opt (Regex.Cat (Regex.Chr "|") (Regex.Star (Regex.Cls alias_unit))))
                   (Regex.Cat (Regex.Chr "]") (Regex.Chr "]"))))))).

Definition surface_form (s : string) : bool := Regex.test link_reference s.

(** [s] is a larger text around a well-formed link. *)
Definition embeds_link (s : string) : Prop :=
  exists before link after,
    s = before +:+ link +:+ after
    /\ surface_form link = true
    /\ (before <> EmptyString \/ after <> EmptyString).

End Surface.


(* ===================================================================== *)
(** * The parsing rule, as the specification words it                     *)
(* ===================================================================== *)

(** [d] is the final [/]-delimited segment of [basis]: it holds no slash and
    what precedes it in [basis] is empty or ends with a slash. *)
Definition final_segment (basis d : string) : Prop :=
  free_of "/" d = true
  /\ exists dir, basis = dir +:+ d /\ (dir = "" \/ exists p, dir = p +:+ "/").

Definition is_anchor_delimiter (c : ascii) : bool :=
  Ascii.eqb c "#" || Ascii.eqb c "^".

(** [p] is [lhs] with its heading-reference or block-reference suffix
    stripped: [p] holds no [#] and no [^], and what follows it in [lhs] is
    empty or begins with one of them. *)
Definition anchor_stripped (lhs p : string) : Prop :=
  all_units (fun c => negb (is_anchor_delimiter c)) p = true
  /\ exists suffix,
       lhs = p +:+ suffix
       /\ (suffix = ""
           \/ exists c rest, suffix = String c rest /\ is_anchor_delimiter c = true).

Import selectableItem main.

(* ===================================================================== *)
(** * What holds of a modal throughout a session                          *)
(* ===================================================================== *)

(** Each row carries, in its listeners, the position it is displayed at. *)
Definition rows_bound (els : list HTMLElement) : Prop :=
  forall k el, els !! k = Some el -> boundIndex el = k.

(** The invariant of the sessions of a modal over [items0]: while the modal
    is open there is one row per item and the callback has not run; once it
    is closed no row is left and the callback has run at most once; the
    active index stays inside the list; a hovered row exists and is the one
    row rendered as highlighted. *)
Definition session_inv {T E : Type} (items0 : list T) (m : SelectableModal T E)
    : Prop :=
  items m = items0
  /\ rows_bound (itemElements m)
  /\ (if isOpen m
      then length (itemElements m) = length items0 /\ calls m = []
      else itemElements m = [] /\ (length (calls m) <= 1)%nat)
  /\ (0 <= activeIndex m
      /\ (items0 <> [] -> activeIndex m < Z.of_nat (length items0)))
  /\ (forall h, hoveredIndex m = Some h ->
        0 <= h < Z.of_nat (length (itemElements m))
        /\ highlighted m = [Z.to_nat h]).

(** The index from which the arrow keys move: the hovered row if there is
    one, the active index otherwise. *)
Definition navigation_base {T E : Type} (m : SelectableModal T E) : Z :=
  default (activeIndex m) (hoveredIndex m).

(* ===================================================================== *)
(** * What the screen of a modal shows throughout a session               *)
(* ===================================================================== *)

(** Besides [session_inv]: the callback and the title never change; the
    title and the rows are on screen exactly while the modal is open, the
    rows showing the names of the items in order; over an empty list the
    active index stays 0; and when no row is hovered the highlight is either
    absent or on the active row. *)
Definition screen_inv {T E : Type} `{SelectableItem T} (items0 : list T)
    (cb : T -> list E) (title : string) (m : SelectableModal T E) : Prop :=
  callback m = cb
  /\ modalTitle m = title
  /\ titleEl m = (if isOpen m then Some title else None)
  /\ map textContent (itemElements m)
     = (if isOpen m then map selectableItem.name items0 else [])
  /\ (items0 = [] -> activeIndex m = 0)
  /\ (hoveredIndex m = None ->
      highlighted m = [] \/ highlighted m = [Z.to_nat (activeIndex m)]).

(* ===================================================================== *)
(** * src/main.ts: the settings                                           *)
(* ===================================================================== *)

Module settingsTab.

(** The code units that [String.prototype.trim] removes, among the 8-bit
    ones: TAB, LF, VT, FF, CR, SPACE and NBSP. *)
Definition is_whitespace (c : ascii) : bool :=
  existsb (Ascii.eqb c)
          ["009"; "010"; "011"; "012"; "013"; "032"; "160"]%char.

Fixpoint trimStart (s : string) : string :=
  match s with
  | EmptyString => EmptyString
  | String c s' => if is_whitespace c then trimStart s' else s
  end.

Fixpoint trimEnd (s : string) : string :=
  match s with
  | EmptyString => EmptyString
  | String c s' =>
      match trimEnd s' with
      | EmptyString => if is_whitespace c then EmptyString else String c EmptyString
      | t => String c t
      end
  end.

(** [s.trim()] *)
Definition trim (s : string) : string := trimEnd (trimStart s).

(** The plugin object as far as its settings go: [settings] is
    [this.settings]; [data] is what [loadData()] returns, [None] while
    nothing was saved and otherwise the object last given to [saveData]. *)
Record Plugin := mkPlugin {
  settings : JumpTopicNoteSettings;
  data : option JumpTopicNoteSettings
}.

(** [loadSettings()]: [Object.assign({}, DEFAULT_SETTINGS, await loadData())] *)
Definition loadSettings (p : Plugin) : Plugin :=
  mkPlugin (match data p with
            | Some saved => {| topicProperty := topicProperty saved |}
            | None => DEFAULT_SETTINGS
            end)
           (data p).

(** [saveSettings()]: [saveData(this.settings)] *)
Definition saveSettings (p : Plugin) : Plugin :=
  mkPlugin (settings p) (Some (settings p)).

(** The [onChange] handler of the text field:
    [settings.topicProperty = value.trim() || DEFAULT_SETTINGS.topicProperty],
    then [saveSettings()]. *)
Definition onChange (value : string) (p : Plugin) : Plugin :=
  let trimmed := trim value in
  saveSettings
    (mkPlugin
       {| topicProperty :=
            if String.eqb trimmed "" then topicProperty DEFAULT_SETTINGS
            else trimmed |}
       (data p)).

(** The plugin after [onload] on a vault whose data file holds [stored]. *)
Definition onload (stored : option JumpTopicNoteSettings) : Plugin :=
  loadSettings (mkPlugin DEFAULT_SETTINGS stored).

(** [s] has no whitespace at either end. *)
Definition trimmed_form (s : string) : Prop :=
  trimStart s = s /\ trimEnd s = s.

End settingsTab.

(* ===================================================================== *)
(** * The entries of a header list                                        *)
(* ===================================================================== *)

(** The entries of a header list that pass the link check, as strings, and
    those that fail it, both in header order. *)
Definition valid_links (parentsList : list JSValue) : list string :=
  flat_map (fun item =>
              match item with
              | JString s => if Regex.test wikilinkPattern s then [s] else []
              | _ => []
              end)
           parentsList.

Definition invalid_entries (parentsList : list JSValue) : list JSValue :=
  List.filter (fun item => negb (isWikilinkEntry item)) parentsList.

Definition is_resolve (e : Effect) : bool :=
  match e with Resolve _ _ => true | _ => false end.

(* ===================================================================== *)
(** * A sample vault                                                      *)
(* ===================================================================== *)

Definition sample_A : ParentTopicItem := {| name := "A"; linkText := "[[A]]" |}.
Definition sample_B : ParentTopicItem := {| name := "B"; linkText := "[[B]]" |}.
Definition sample_C : ParentTopicItem := {| name := "C"; linkText := "[[C]]" |}.

Definition sample_file : TFile :=
  {| path := "notes/child.md"; basename := "child" |}.

(** A vault whose active note holds [field] under [parents], where every
    link resolves and every file opens. *)
Definition sample_app (field : JSValue) : App :=
  {| getActiveFile := Some sample_file;
     getFileCache := fun _ =>
       Some {| frontmatter := Some {[ "parents" := field ]} |};
     getFirstLinkpathDest := fun internalPath _ =>
       Some {| path := internalPath +:+ ".md"; basename := internalPath |};
     openFile := fun _ => true |}.

(** The modal of the sample vault, over three parents. *)
Definition sample_modal : SelectableModal ParentTopicItem Effect :=
  open (new [sample_A; sample_B; sample_C]
            (fun selectedItem =>
               navigateToLink (sample_app JNull) (linkText selectedItem)
                              (path sample_file))
            "Select superior topic note").

(* ===================================================================== *)
(** * Strings                                                             *)
(* ===================================================================== *)

(** [String.append] is kept folded by [simpl]; these two equations unfold
    it by hand. *)
Lemma append_nil_l (s : string) : "" +:+ s = s.
Proof. reflexivity. Qed.

Lemma append_cons_l (c : ascii) (s t : string) :
  String c s +:+ t = String c (s +:+ t).
Proof. reflexivity. Qed.

Ltac unfold_append :=
  repeat first [rewrite append_cons_l | rewrite append_nil_l].

Lemma append_empty_r (s : string) : s +:+ "" = s.
Proof.
  induction s as [|c s IH]; unfold_append; [reflexivity | now rewrite IH].
Qed.

Lemma append_assoc (a b c : string) : (a +:+ b) +:+ c = a +:+ (b +:+ c).
Proof.
  induction a as [|x a IH]; unfold_append; [reflexivity | now rewrite IH].
Qed.

Lemma append_eq_empty (a b : string) : a +:+ b = "" -> a = "" /\ b = "".
Proof. destruct a; unfold_append; [auto | discriminate]. Qed.

Lemma append_eq_cons (a b : string) (c : ascii) (s : string) :
  a +:+ b = String c s ->
  (a = "" /\ b = String c s) \/ (exists a', a = String c a' /\ s = a' +:+ b).
Proof.
  destruct a as [|x a]; unfold_append; intros Heq.
  - left; auto.
  - right. injection Heq as -> <-. eauto.
Qed.

Lemma length_append (a b : string) :
  String.length (a +:+ b) = (String.length a + String.length b)%nat.
Proof.
  induction a as [|x a IH]; unfold_append; simpl; [reflexivity | now rewrite IH].
Qed.

Lemma all_units_append q (a b : string) :
  all_units q (a +:+ b) = all_units q a && all_units q b.
Proof.
  induction a as [|x a IH]; unfold_append; simpl; [reflexivity|].
  rewrite IH. now rewrite andb_assoc.
Qed.

Lemma all_units_weaken (p q : ascii -> bool) (s : string) :
  (forall c, p c = true -> q c = true) ->
  all_units p s = true -> all_units q s = true.
Proof.
  intros Hpq. induction s as [|c s IH]; simpl; [reflexivity|].
  rewrite !andb_true_iff. intros [Hc Hs]. auto.
Qed.

(* ===================================================================== *)
(** * Matching by derivatives agrees with the words of the expression     *)
(* ===================================================================== *)

Section RegexFacts.
Import Regex.

Lemma lang_empty_nullable r s : lang r s -> s = "" -> nullable r = true.
Proof.
  induction 1 as [ | p c Hp | r1 r2 s1 s2 _ IH1 _ IH2 | r1 r2 s _ IH
                 | r1 r2 s _ IH | r | r s1 s2 _ _ _ _ ]; intros Hs; simpl;
    try reflexivity.
  - discriminate.
  - apply append_eq_empty in Hs as [-> ->]. now rewrite IH1, IH2.
  - now rewrite IH.
  - rewrite IH by assumption. apply orb_true_r.
Qed.

Lemma nullable_lang_empty r : nullable r = true -> lang r "".
Proof.
  induction r as [ | | p | r1 IH1 r2 IH2 | r1 IH1 r2 IH2 | r IH ]; simpl;
    intros Hn; try discriminate.
  - constructor.
  - apply andb_true_iff in Hn as [H1 H2].
    change "" with ("" +:+ ""). constructor; auto.
  - apply orb_true_iff in Hn as [H1 | H2].
    + apply lang_alt_l; auto.
    + apply lang_alt_r; auto.
  - constructor.
Qed.

Lemma deriv_sound c r : forall s, lang (deriv c r) s -> lang r (String c s).
Proof.
  induction r as [ | | p | r1 IH1 r2 IH2 | r1 IH1 r2 IH2 | r IH ]; simpl;
    intros s Hl.
  - inversion Hl.
  - inversion Hl.
  - destruct (p c) eqn:Hp; inversion Hl; subst. now constructor.
  - destruct (nullable r1) eqn:Hn.
    + inversion Hl as [ | | | ? ? ? Hc | ? ? ? Hd | | ]; subst.
      * inversion Hc as [ | | ? ? s1 s2 H1 H2 | | | | ]; subst.
        change (String c (s1 +:+ s2)) with (String c s1 +:+ s2).
        constructor; auto.
      * change (String c s) with ("" +:+ String c s).
        constructor; auto using nullable_lang_empty.
    + inversion Hl as [ | | ? ? s1 s2 H1 H2 | | | | ]; subst.
      change (String c (s1 +:+ s2)) with (String c s1 +:+ s2).
      constructor; auto.
  - inversion Hl; subst; [apply lang_alt_l | apply lang_alt_r]; auto.
  - inversion Hl as [ | | ? ? s1 s2 H1 H2 | | | | ]; subst.
    change (String c (s1 +:+ s2)) with (String c s1 +:+ s2).
    apply lang_star_cons; auto.
Qed.

Lemma deriv_complete c r w :
  lang r w -> forall s, w = String c s -> lang (deriv c r) s.
Proof.
  induction 1 as [ | p x Hp | r1 r2 s1 s2 H1 IH1 H2 IH2 | r1 r2 w _ IH
                 | r1 r2 w _ IH | r | r s1 s2 H1 IH1 H2 IH2 ];
    intros s Hw; simpl.
  - discriminate.
  - injection Hw as -> <-. rewrite Hp. constructor.
  - apply append_eq_cons in Hw as [[-> ->] | (a & -> & ->)].
    + rewrite (lang_empty_nullable _ _ H1 eq_refl).
      apply lang_alt_r. now apply IH2.
    + destruct (nullable r1).
      * apply lang_alt_l. constructor; auto.
      * constructor; auto.
  - apply lang_alt_l. auto.
  - apply lang_alt_r. auto.
  - discriminate.
  - apply append_eq_cons in Hw as [[-> ->] | (a & -> & ->)].
    + now apply IH2.
    + constructor; auto.
Qed.

Lemma test_lang r s : test r s = true <-> lang r s.
Proof.
  revert r. induction s as [|c s IH]; intros r; simpl.
  - split; [apply nullable_lang_empty | intros Hl].
    now apply (lang_empty_nullable _ _ Hl).
  - rewrite IH. split; [apply deriv_sound | intros Hl].
    now apply (deriv_complete _ _ _ Hl).
Qed.

Lemma lang_chr c s : lang (Chr c) s <-> s = String c "".
Proof.
  unfold Chr. split.
  - inversion 1 as [ | p x Hp | | | | | ]; subst.
    apply Ascii.eqb_eq in Hp. now subst.
  - intros ->. constructor. apply Ascii.eqb_refl.
Qed.

Lemma lang_within q r s :
  lang r s -> classes_within q r -> all_units q s = true.
Proof.
  induction 1 as [ | p x Hp | r1 r2 s1 s2 _ IH1 _ IH2 | r1 r2 w _ IH
                 | r1 r2 w _ IH | r | r s1 s2 _ IH1 _ IH2 ]; simpl; intros Hq;
    try reflexivity.
  - now rewrite (Hq _ Hp).
  - destruct Hq. rewrite all_units_append, IH1, IH2; auto.
  - destruct Hq; auto.
  - destruct Hq; auto.
  - rewrite all_units_append, IH1, IH2; auto.
Qed.

Lemma all_units_star p s : all_units p s = true -> lang (Star (Cls p)) s.
Proof.
  induction s as [|c s IH]; simpl; intros Hs.
  - constructor.
  - apply andb_true_iff in Hs as [Hc Hs].
    change (String c s) with (String c "" +:+ s).
    apply lang_star_cons; [now constructor | auto].
Qed.

Lemma lang_plus_cls p s :
  lang (Plus (Cls p)) s <-> s <> "" /\ all_units p s = true.
Proof.
  unfold Plus. split.
  - intros Hl. split.
    + inversion Hl as [ | | ? ? s1 s2 H1 H2 | | | | ]; subst.
      inversion H1; subst. discriminate.
    + apply (lang_within p _ _ Hl). simpl. auto.
  - intros [Hne Hs]. destruct s as [|c s]; [congruence|].
    simpl in Hs. apply andb_true_iff in Hs as [Hc Hs].
    change (String c s) with (String c "" +:+ s).
    constructor; [now constructor | now apply all_units_star].
Qed.

End RegexFacts.

(* ===================================================================== *)
(** * The link-entry check of [executeJumpLogic]                          *)
(* ===================================================================== *)

Lemma lang_wikilinkPattern (s : string) :
  Regex.lang wikilinkPattern s <->
  exists body,
    s = "[[" +:+ body +:+ "]]" /\ body <> ""
    /\ all_units (fun c => negb (JS.is_line_terminator c)) body = true.
Proof.
  unfold wikilinkPattern. split.
  - intros H0.
    inversion H0 as [ | | ? ? a0 t0 Ha0 H1 | | | | ]; subst.
    inversion H1 as [ | | ? ? a1 t1 Ha1 H2 | | | | ]; subst.
    inversion H2 as [ | | ? ? body t2 Hb H3 | | | | ]; subst.
    inversion H3 as [ | | ? ? a3 a4 Ha3 Ha4 | | | | ]; subst.
    apply lang_chr in Ha0, Ha1, Ha3, Ha4. subst.
    apply lang_plus_cls in Hb as [Hne Hall].
    exists body. auto.
  - intros (body & -> & Hne & Hall).
    change ("[[" +:+ body +:+ "]]")
      with ("[" +:+ ("[" +:+ (body +:+ ("]" +:+ "]")))).
    repeat (constructor; [apply lang_chr; reflexivity|]).
    constructor; [now apply lang_plus_cls|].
    constructor; apply lang_chr; reflexivity.
Qed.

Lemma surface_unit_not_terminator excluded c :
  Surface.unit_outside excluded c = true -> negb (JS.is_line_terminator c) = true.
Proof. unfold Surface.unit_outside. now intros [? _]%andb_true_iff. Qed.

Lemma eqb_not_terminator x c :
  JS.is_line_terminator x = false ->
  Ascii.eqb x c = true -> negb (JS.is_line_terminator c) = true.
Proof. intros Hx ->%Ascii.eqb_eq. now rewrite Hx. Qed.

Ltac within_terminators :=
  unfold Regex.Opt, Regex.Plus, Regex.Chr; cbn [Regex.classes_within];
  repeat match goal with
         | |- _ /\ _ => split
         | |- True => exact I
         end;
  intros ?;
  first [ apply surface_unit_not_terminator
        | apply eqb_not_terminator; reflexivity ].

(** Every string of the surface syntax is wrapped in one pair of double
    brackets around a non-empty body without line terminators. *)
Lemma surface_form_wrapped (s : string) :
  Surface.surface_form s = true ->
  exists body,
    s = "[[" +:+ body +:+ "]]" /\ body <> ""
    /\ all_units (fun c => negb (JS.is_line_terminator c)) body = true.
Proof.
  unfold Surface.surface_form, Surface.link_reference.
  intros H0%test_lang.
  inversion H0 as [ | | ? ? a0 t0 Ha0 H1 | | | | ]; subst.
  inversion H1 as [ | | ? ? a1 t1 Ha1 H2 | | | | ]; subst.
  inversion H2 as [ | | ? ? p t2 Hp H3 | | | | ]; subst.
  inversion H3 as [ | | ? ? h t3 Hh H4 | | | | ]; subst.
  inversion H4 as [ | | ? ? b t4 Hb H5 | | | | ]; subst.
  inversion H5 as [ | | ? ? a t5 Ha H6 | | | | ]; subst.
  inversion H6 as [ | | ? ? a3 a4 Ha3 Ha4 | | | | ]; subst.
  apply lang_chr in Ha0, Ha1, Ha3, Ha4. subst.
  set (q := fun c => negb (JS.is_line_terminator c)).
  assert (Hqp : all_units q p = true).
  { apply (lang_within q _ _ Hp). within_terminators. }
  assert (Hqh : all_units q h = true).
  { apply (lang_within q _ _ Hh). within_terminators. }
  assert (Hqb : all_units q b = true).
  { apply (lang_within q _ _ Hb). within_terminators. }
  assert (Hqa : all_units q a = true).
  { apply (lang_within q _ _ Ha). within_terminators. }
  apply lang_plus_cls in Hp as [Hne _].
  exists (p +:+ (h +:+ (b +:+ a))). split; [|split].
  - unfold_append. rewrite !append_assoc. reflexivity.
  - destruct p; [congruence | discriminate].
  - rewrite !all_units_append, Hqp, Hqh, Hqb, Hqa. reflexivity.
Qed.

(** C5, as the code has it: the check accepts exactly the strings that open
    with two left brackets, close with two right brackets and hold in between
    at least one code unit, none of them a line terminator.  Every string of
    the surface syntax [[[path(#heading)?(^block)?(|alias)?]]] is therefore
    accepted, and a string with text before the opening or after the closing
    brackets is not; the body itself is not inspected further. *)
Theorem wikilink_check_accepts_wrapped_strings :
  (forall s : string,
     isWikilinkEntry (JString s) = true <->
     exists body,
       s = "[[" +:+ body +:+ "]]" /\ body <> ""
       /\ all_units (fun c => negb (JS.is_line_terminator c)) body = true)
  /\ (forall s : string,
        Surface.surface_form s = true -> isWikilinkEntry (JString s) = true).
Proof.
  cbn [isWikilinkEntry]. split.
  - intros s. rewrite test_lang. apply lang_wikilinkPattern.
  - intros s Hs. apply test_lang, lang_wikilinkPattern.
    now apply surface_form_wrapped.
Qed.

(** C5, as stated, fails: a text made of two links and the words between
    them is not of the surface syntax and embeds a well-formed link, yet the
    check accepts it. *)
Lemma wikilink_check_accepts_embedded_links :
  isWikilinkEntry (JString "[[A]] and [[B]]") = true
  /\ Surface.surface_form "[[A]] and [[B]]" = false
  /\ Surface.embeds_link "[[A]] and [[B]]"
  /\ ~ (forall s : string,
          isWikilinkEntry (JString s) = true <-> Surface.surface_form s = true).
Proof.
  split; [reflexivity|]. split; [reflexivity|]. split.
  - exists "", "[[A]]", " and [[B]]". split; [reflexivity|].
    split; [reflexivity|]. right. discriminate.
  - intros Hiff. specialize (Hiff "[[A]] and [[B]]").
    destruct Hiff as [Hacc _]. specialize (Hacc eq_refl). discriminate.
Qed.

(* ===================================================================== *)
(** * Parsing a wikilink                                                  *)
(* ===================================================================== *)

Lemma substring_0_prefix (a b : string) :
  String.substring 0 (String.length a) (a +:+ b) = a.
Proof.
  induction a as [|c a IH]; unfold_append; simpl.
  - destruct b; reflexivity.
  - now rewrite IH.
Qed.

Lemma substring_skip (a b : string) (n : nat) :
  String.substring (String.length a) n (a +:+ b) = String.substring 0 n b.
Proof. induction a as [|c a IH]; unfold_append; simpl; auto. Qed.

Lemma substring_0_all (s : string) : String.substring 0 (String.length s) s = s.
Proof.
  rewrite <- (append_empty_r s) at 2. apply substring_0_prefix.
Qed.

Lemma substring_wrapped (bare : string) :
  let w := "[[" +:+ bare +:+ "]]" in
  JS.substring w 2 (JS.len w - 2) = bare.
Proof.
  cbv zeta. unfold JS.substring, JS.clamp, JS.len.
  unfold_append. cbn [String.length]. rewrite length_append. cbn [String.length].
  set (n := String.length bare).
  replace (Z.to_nat _) with 2%nat by lia.
  replace (Z.to_nat _) with n by lia.
  cbn [String.substring]. apply substring_0_prefix.
Qed.

Lemma substring_from_after (pre seg : string) (c : ascii) :
  JS.substring_from (pre +:+ String c seg) (JS.len pre + 1) = seg.
Proof.
  unfold JS.substring_from, JS.substring, JS.clamp, JS.len.
  rewrite length_append. cbn [String.length].
  set (n := String.length pre). set (k := String.length seg).
  replace (Z.to_nat _) with (S n) by lia.
  replace (Z.to_nat _) with k by lia.
  replace (pre +:+ String c seg) with ((pre +:+ String c "") +:+ seg)
    by now rewrite append_assoc.
  replace (S n) with (String.length (pre +:+ String c ""))
    by (rewrite length_append; simpl; lia).
  rewrite substring_skip. apply substring_0_all.
Qed.

Lemma split_nonempty c s : JS.split c s <> [].
Proof.
  destruct s as [|a s]; simpl; [discriminate|].
  destruct (Ascii.eqb a c); [discriminate|].
  destruct (JS.split c s); discriminate.
Qed.

Lemma split_free c s : free_of c s = true -> JS.split c s = [s].
Proof.
  unfold free_of. induction s as [|a s IH]; simpl; [reflexivity|].
  intros [Ha Hs]%andb_true_iff. apply negb_true_iff in Ha. rewrite Ha.
  now rewrite (IH Hs).
Qed.

Lemma split_at_separator c a b :
  free_of c a = true -> JS.split c (a +:+ String c b) = a :: JS.split c b.
Proof.
  unfold free_of. induction a as [|x a IH]; unfold_append; simpl.
  - intros _. now rewrite Ascii.eqb_refl.
  - intros [Hx Ha]%andb_true_iff. apply negb_true_iff in Hx. rewrite Hx.
    now rewrite (IH Ha).
Qed.

(** A string either lacks [c] or splits at its first occurrence. *)
Lemma first_occurrence c s :
  free_of c s = true
  \/ exists a b, s = a +:+ String c b /\ free_of c a = true.
Proof.
  unfold free_of. induction s as [|x s IH]; simpl; [now left|].
  destruct (Ascii.eqb_spec x c) as [-> | Hne]; simpl.
  - right. exists "", s. auto.
  - destruct IH as [Hs | (a & b & -> & Ha)]; [now left|].
    right. exists (String x a), b. split; [reflexivity|].
    simpl. apply Ascii.eqb_neq in Hne. now rewrite Hne.
Qed.

(** A string either lacks [c] or splits at its last occurrence. *)
Lemma last_occurrence c s :
  free_of c s = true
  \/ exists a b, s = a +:+ String c b /\ free_of c b = true.
Proof.
  unfold free_of. induction s as [|x s IH]; simpl; [now left|].
  destruct IH as [Hs | (a & b & -> & Hb)].
  - destruct (Ascii.eqb_spec x c) as [-> | Hne]; simpl.
    + right. exists "", s. auto.
    + now left.
  - right. exists (String x a), b. auto.
Qed.

(** The first part of a split: the text before the first separator. *)
Lemma split_head c s :
  free_of c (JS.at_ (JS.split c s) 0) = true
  /\ exists suffix,
       s = JS.at_ (JS.split c s) 0 +:+ suffix
       /\ (suffix = "" \/ exists rest, suffix = String c rest).
Proof.
  destruct (first_occurrence c s) as [Hs | (a & b & -> & Ha)].
  - rewrite (split_free _ _ Hs). cbn. split; [assumption|].
    exists "". rewrite append_empty_r. auto.
  - rewrite (split_at_separator _ _ _ Ha). cbn. split; [assumption|].
    exists (String c b). eauto.
Qed.

Lemma lastIndexOf_from_free c s pos found :
  free_of c s = true -> JS.lastIndexOf_from c s pos found = found.
Proof.
  unfold free_of. revert pos found.
  induction s as [|a s IH]; simpl; intros pos found; [reflexivity|].
  intros [Ha Hs]%andb_true_iff. apply negb_true_iff in Ha. rewrite Ha. auto.
Qed.

Lemma lastIndexOf_from_append c a b pos found :
  JS.lastIndexOf_from c (a +:+ b) pos found
  = JS.lastIndexOf_from c b (pos + JS.len a) (JS.lastIndexOf_from c a pos found).
Proof.
  unfold JS.len. revert pos found.
  induction a as [|x a IH]; unfold_append; intros pos found.
  - simpl. f_equal. lia.
  - cbn [JS.lastIndexOf_from String.length]. rewrite IH. f_equal. lia.
Qed.

Lemma lastIndexOf_last c pre seg :
  free_of c seg = true ->
  JS.lastIndexOf c (pre +:+ String c seg) = JS.len pre.
Proof.
  intros Hseg. unfold JS.lastIndexOf.
  rewrite lastIndexOf_from_append. cbn [JS.lastIndexOf_from].
  rewrite Ascii.eqb_refl. now rewrite lastIndexOf_from_free.
Qed.

(** What [extractDisplayNameFromWikilink] keeps of [mainPart]. *)
Lemma after_last_slash (mainPart : string) :
  final_segment mainPart
    (if JS.lastIndexOf "/" mainPart =? -1 then mainPart
     else JS.substring_from mainPart (JS.lastIndexOf "/" mainPart + 1)).
Proof.
  destruct (last_occurrence "/" mainPart) as [Hfree | (pre & seg & -> & Hseg)].
  - unfold JS.lastIndexOf. rewrite lastIndexOf_from_free by assumption.
    cbn. split; [assumption|]. exists "". auto.
  - rewrite lastIndexOf_last by assumption.
    assert (Hlen : (JS.len pre =? -1) = false)
      by (apply Z.eqb_neq; unfold JS.len; lia).
    rewrite Hlen, substring_from_after.
    split; [assumption|]. exists (pre +:+ "/"). split.
    + now rewrite append_assoc.
    + right. eauto.
Qed.

Lemma all_units_conj (p q : ascii -> bool) s :
  all_units p s = true -> all_units q s = true ->
  all_units (fun c => p c && q c) s = true.
Proof.
  induction s as [|c s IH]; simpl; [reflexivity|].
  intros [-> Hp]%andb_true_iff [-> Hq]%andb_true_iff. simpl. auto.
Qed.

(** What [extractInternalPathFromWikilink] keeps of the text before the
    alias separator. *)
Lemma before_first_anchor (lhs : string) :
  anchor_stripped lhs (JS.at_ (JS.split "^" (JS.at_ (JS.split "#" lhs) 0)) 0).
Proof.
  destruct (split_head "#" lhs) as (Hh & suf1 & Hlhs & Hsuf1).
  set (p1 := JS.at_ (JS.split "#" lhs) 0) in *.
  destruct (split_head "^" p1) as (Hb & suf2 & Hp1 & Hsuf2).
  set (p := JS.at_ (JS.split "^" p1) 0) in *.
  split.
  - assert (Hhp : free_of "#" p = true).
    { unfold free_of in Hh |- *. rewrite Hp1, all_units_append in Hh.
      now apply andb_true_iff in Hh as [? _]. }
    apply (all_units_weaken
             (fun c => negb (Ascii.eqb c "#") && negb (Ascii.eqb c "^"))).
    { intros c Hc. unfold is_anchor_delimiter. now rewrite negb_orb. }
    apply all_units_conj; assumption.
  - exists (suf2 +:+ suf1). split.
    + rewrite <- append_assoc, <- Hp1. exact Hlhs.
    + destruct Hsuf2 as [-> | (rest & ->)].
      * unfold_append. destruct Hsuf1 as [-> | (rest & ->)]; [now left|].
        right. exists "#"%char, rest. auto.
      * right. exists "^"%char, (rest +:+ suf1). auto.
Qed.

(** C7: parsing a link reference [[[bare]]].  Either [bare] holds no alias
    separator or it reads [lhs|alias] up to its end or to a further
    separator.  Without an alias separator the display name is the final
    [/]-segment of [bare]; with one it is the final [/]-segment of the alias,
    the text between the first separator and the end (or a further
    separator).  In both cases the resolvable path is the text before the
    first separator with its [#] or [^] suffix stripped, whatever the alias
    is. *)
Theorem wikilink_parsing (bare : string) :
  let w := "[[" +:+ bare +:+ "]]" in
  (free_of "|" bare = true
   \/ exists lhs alias tail : string,
        bare = lhs +:+ "|" +:+ alias +:+ tail
        /\ free_of "|" lhs = true /\ free_of "|" alias = true
        /\ (tail = "" \/ exists t, tail = "|" +:+ t))
  /\ (free_of "|" bare = true ->
     final_segment bare (extractDisplayNameFromWikilink w)
     /\ anchor_stripped bare (extractInternalPathFromWikilink w))
  /\ (forall lhs alias tail : string,
        bare = lhs +:+ "|" +:+ alias +:+ tail ->
        free_of "|" lhs = true ->
        free_of "|" alias = true ->
        (tail = "" \/ exists t, tail = "|" +:+ t) ->
        final_segment alias (extractDisplayNameFromWikilink w)
        /\ anchor_stripped lhs (extractInternalPathFromWikilink w)).
Proof.
  cbv zeta. unfold extractDisplayNameFromWikilink, extractInternalPathFromWikilink.
  rewrite substring_wrapped. split; [|split].
  - destruct (first_occurrence "|" bare) as [Hfree | (lhs & b & -> & Hlhs)];
      [now left | right].
    destruct (first_occurrence "|" b) as [Hb | (alias & t & -> & Halias)].
    + exists lhs, b, "". rewrite append_empty_r. auto.
    + exists lhs, alias, ("|" +:+ t). repeat split; eauto.
  - intros Hfree. rewrite (split_free _ _ Hfree). cbn [length Nat.ltb Nat.leb].
    change (JS.at_ [bare] 0) with bare.
    split; [apply after_last_slash | apply before_first_anchor].
  - intros lhs alias tail -> Hlhs Halias Htail.
    change ("|" +:+ alias +:+ tail) with (String "|" (alias +:+ tail)).
    rewrite (split_at_separator _ _ _ Hlhs).
    assert (Hparts : exists rest, JS.split "|" (alias +:+ tail) = alias :: rest).
    { destruct Htail as [-> | (t & ->)].
      - rewrite append_empty_r, (split_free _ _ Halias). eauto.
      - change ("|" +:+ t) with (String "|" t).
        rewrite (split_at_separator _ _ _ Halias). eauto. }
    destruct Hparts as (rest & ->).
    change (JS.at_ (lhs :: alias :: rest) 1) with alias.
    change (JS.at_ (lhs :: alias :: rest) 0) with lhs.
    cbn [length Nat.ltb Nat.leb].
    split; [apply after_last_slash | apply before_first_anchor].
Qed.

Lemma wikilink_parsing_witness :
  final_segment "Custom Alias"
    (extractDisplayNameFromWikilink "[[Folder/Topic B#Heading|Custom Alias]]")
  /\ anchor_stripped "Folder/Topic B#Heading"
       (extractInternalPathFromWikilink "[[Folder/Topic B#Heading|Custom Alias]]").
Proof.
  apply (proj2 (proj2 (wikilink_parsing "Folder/Topic B#Heading|Custom Alias"))
               "Folder/Topic B#Heading" "Custom Alias" "");
    [reflexivity | reflexivity | reflexivity | left; reflexivity].
Defined.

(** C7 as stated fails: in a link of the surface syntax whose alias holds a
    [|], the right-hand side of the alias separator is [c/d|e/f], with final
    segment [f], and the display name is [d]: the code ends the alias at the
    second separator. *)
Lemma second_separator_ends_the_alias :
  Surface.surface_form "[[a/b|c/d|e/f]]" = true
  /\ isWikilinkEntry (JString "[[a/b|c/d|e/f]]") = true
  /\ "[[a/b|c/d|e/f]]" = "[[" +:+ "a/b" +:+ "|" +:+ "c/d|e/f" +:+ "]]"
  /\ free_of "|" "a/b" = true
  /\ final_segment "c/d|e/f" "f"
  /\ extractDisplayNameFromWikilink "[[a/b|c/d|e/f]]" = "d"
  /\ ~ final_segment "c/d|e/f"
        (extractDisplayNameFromWikilink "[[a/b|c/d|e/f]]").
Proof.
  split; [reflexivity|]. split; [reflexivity|]. split; [reflexivity|].
  split; [reflexivity|]. split.
  { split; [reflexivity|]. exists "c/d|e/". split; [reflexivity|].
    right. exists "c/d|e". reflexivity. }
  split; [reflexivity|].
  change (extractDisplayNameFromWikilink "[[a/b|c/d|e/f]]") with "d".
  intros (_ & dir & Heq & _).
  do 8 (destruct dir as [|? dir];
        [ discriminate Heq
        | rewrite append_cons_l in Heq; try discriminate Heq;
          injection Heq as _ Heq ]).
Qed.

(** The parsing examples of the specification. *)
Example parse_plain :
  extractDisplayNameFromWikilink "[[Topic A]]" = "Topic A"
  /\ extractInternalPathFromWikilink "[[Topic A]]" = "Topic A".
Proof. split; reflexivity. Qed.

Example parse_alias :
  extractDisplayNameFromWikilink "[[Folder/Topic B|Custom Alias]]" = "Custom Alias"
  /\ extractInternalPathFromWikilink "[[Folder/Topic B|Custom Alias]]" = "Folder/Topic B".
Proof. split; reflexivity. Qed.

Example parse_heading_alias :
  extractDisplayNameFromWikilink "[[Folder/Topic B#Heading|Custom Alias]]" = "Custom Alias"
  /\ extractInternalPathFromWikilink "[[Folder/Topic B#Heading|Custom Alias]]" = "Folder/Topic B".
Proof. split; reflexivity. Qed.

(* ===================================================================== *)
(** * The modal                                                           *)
(* ===================================================================== *)

Section ModalFacts.
Context {T E : Type} {HT : SelectableItem T}.
Implicit Types (m : SelectableModal T E) (els : list HTMLElement).

Lemma focused_from_imap (idx : Z) els : forall off : nat,
  focused_from off
    (imap (fun i el => set_focused (Z.of_nat (off + i) =? idx) el) els)
  = if (Z.of_nat off <=? idx) && (idx <? Z.of_nat (off + length els))
    then [Z.to_nat idx] else [].
Proof.
  induction els as [|el els IH]; intros off; cbn [imap focused_from length].
  - destruct (Z.leb_spec (Z.of_nat off) idx), (Z.ltb_spec idx (Z.of_nat (off + 0)));
      simpl; try reflexivity; lia.
  - cbn [set_focused is_focused].
    rewrite (imap_ext _ (fun i el0 => set_focused (Z.of_nat (S off + i) =? idx) el0))
      by (intros i x _; unfold compose; do 2 f_equal; lia).
    rewrite IH.
    destruct (Z.eqb_spec (Z.of_nat (off + 0)) idx) as [Heq | Hne].
    + destruct (Z.leb_spec (Z.of_nat (S off)) idx); [lia|].
      destruct (Z.leb_spec (Z.of_nat off) idx); [|lia].
      destruct (Z.ltb_spec idx (Z.of_nat (off + S (length els)))); [|lia].
      simpl. f_equal. lia.
    + destruct (Z.leb_spec (Z.of_nat (S off)) idx),
               (Z.leb_spec (Z.of_nat off) idx),
               (Z.ltb_spec idx (Z.of_nat (S off + length els))),
               (Z.ltb_spec idx (Z.of_nat (off + S (length els))));
        simpl; try reflexivity; lia.
Qed.

Lemma highlighted_focusItem (index : option Z) m :
  highlighted (focusItem index m)
  = let i := default (-1) index in
    if (0 <=? i) && (i <? Z.of_nat (length (itemElements m)))
    then [Z.to_nat i] else [].
Proof.
  unfold highlighted, focusItem. cbn [itemElements set_itemElements].
  exact (focused_from_imap (default (-1) index) (itemElements m) 0).
Qed.

Lemma length_focusItem index m :
  length (itemElements (focusItem index m)) = length (itemElements m).
Proof. unfold focusItem. cbn. apply length_imap. Qed.

Lemma rows_bound_focusItem index m :
  rows_bound (itemElements m) -> rows_bound (itemElements (focusItem index m)).
Proof.
  unfold rows_bound, focusItem. cbn [itemElements set_itemElements].
  intros Hb k el. rewrite list_lookup_imap.
  destruct (itemElements m !! k) as [el0|] eqn:Hk; [|discriminate].
  cbn. intros [= <-]. cbn. eauto.
Qed.

Lemma rows_bound_onOpen (l : list T) :
  rows_bound
    (imap (fun index item => mkEl (selectableItem.name item) 0 false index) l).
Proof.
  intros k el. rewrite list_lookup_imap.
  destruct (l !! k); [|discriminate]. cbn. now intros [= <-].
Qed.

(** Rows are displayed only while the modal is open. *)
Lemma rows_imply_open items0 m k el :
  session_inv items0 m -> itemElements m !! k = Some el ->
  isOpen m = true /\ calls m = [] /\ (k < length items0)%nat /\ boundIndex el = k.
Proof.
  intros (Hit & Hb & Hop & _ & _) Hk.
  destruct (isOpen m).
  - destruct Hop as [Hlen Hc]. apply lookup_lt_Some in Hk as Hlt.
    rewrite Hlen in Hlt. auto.
  - destruct Hop as [Hnil _]. rewrite Hnil in Hk. discriminate.
Qed.

Lemma session_inv_focusItem items0 index m :
  items m = items0 ->
  rows_bound (itemElements m) ->
  (if isOpen m
   then length (itemElements m) = length items0 /\ calls m = []
   else itemElements m = [] /\ (length (calls m) <= 1)%nat) ->
  (0 <= activeIndex m /\ (items0 <> [] -> activeIndex m < Z.of_nat (length items0))) ->
  (forall h, hoveredIndex m = Some h ->
     index = Some h /\ 0 <= h < Z.of_nat (length (itemElements m))) ->
  session_inv items0 (focusItem index m).
Proof.
  intros Hit Hb Hop Ha Hh. unfold session_inv.
  split; [exact Hit|]. split; [now apply rows_bound_focusItem|].
  split; [|split; [exact Ha|]].
  - change (isOpen (focusItem index m)) with (isOpen m).
    change (calls (focusItem index m)) with (calls m).
    destruct (isOpen m).
    + now rewrite length_focusItem.
    + destruct Hop as [Hnil Hc]. split; [|exact Hc].
      unfold focusItem. cbn. now rewrite Hnil.
  - change (hoveredIndex (focusItem index m)) with (hoveredIndex m).
    intros h Hhov. destruct (Hh h Hhov) as [-> Hr].
    rewrite length_focusItem, highlighted_focusItem. split; [exact Hr|].
    cbv zeta. cbn [from_option id].
    destruct (Z.leb_spec 0 h), (Z.ltb_spec h (Z.of_nat (length (itemElements m))));
      simpl; try reflexivity; lia.
Qed.

Lemma session_inv_open (items0 : list T) (cb : T -> list E) (title : string) :
  session_inv items0 (open (new items0 cb title)).
Proof.
  unfold open, onOpen, new.
  cbn [set_isOpen set_titleEl set_itemElements set_activeIndex items callback
       modalTitle activeIndex hoveredIndex itemElements titleEl isOpen calls].
  rewrite length_imap.
  destruct (0 <? length items0)%nat eqn:Hn.
  - apply session_inv_focusItem; cbn.
    + reflexivity.
    + apply rows_bound_onOpen.
    + now rewrite length_imap.
    + apply Nat.ltb_lt in Hn. lia.
    + discriminate.
  - unfold session_inv. cbn. rewrite length_imap.
    apply Nat.ltb_ge in Hn.
    repeat split; try reflexivity; try lia.
    + apply rows_bound_onOpen.
    + intros Hne. destruct items0; [congruence | simpl in Hn; lia].
    + discriminate.
    + discriminate.
    + discriminate.
Qed.

Lemma session_inv_close items0 m :
  items m = items0 ->
  (0 <= activeIndex m /\ (items0 <> [] -> activeIndex m < Z.of_nat (length items0))) ->
  (length (calls m) <= 1)%nat ->
  session_inv items0 (close m).
Proof.
  intros Hit Ha Hc. unfold session_inv, close, onClose. cbn.
  repeat split; try assumption; try tauto; try discriminate.
Qed.

Lemma calls_bounded items0 m :
  session_inv items0 m -> (length (calls m) <= 1)%nat.
Proof.
  intros (_ & _ & Hop & _ & _). destruct (isOpen m).
  - destruct Hop as [_ ->]. simpl. lia.
  - tauto.
Qed.

Lemma session_inv_selectItem items0 m index :
  session_inv items0 m -> isOpen m = true ->
  session_inv items0 (selectItem index m).
Proof.
  intros Hinv Hopen. unfold selectItem.
  destruct ((index >=? 0) && (index <? Z.of_nat (length (items m))));
    [|exact Hinv].
  destruct (items m !! Z.to_nat index) as [item|]; [|exact Hinv].
  destruct Hinv as (Hit & _ & Hop & Ha & _). rewrite Hopen in Hop.
  destruct Hop as [_ Hc].
  apply session_inv_close; cbn; [exact Hit | exact Ha |].
  rewrite Hc. simpl. lia.
Qed.

Lemma session_inv_handleMouseOver items0 m (k : nat) :
  session_inv items0 m -> (k < length (itemElements m))%nat ->
  session_inv items0 (handleMouseOver (Z.of_nat k) m).
Proof.
  intros (Hit & Hb & Hop & Ha & _) Hk. unfold handleMouseOver.
  apply session_inv_focusItem; cbn; try assumption.
  intros h [= <-]. split; [reflexivity | lia].
Qed.

Lemma session_inv_handleMouseLeave items0 m :
  session_inv items0 m -> session_inv items0 (handleMouseLeave m).
Proof.
  intros (Hit & Hb & Hop & Ha & _). unfold handleMouseLeave.
  apply session_inv_focusItem; cbn; try assumption. discriminate.
Qed.

Lemma session_inv_navigateItems items0 m direction :
  session_inv items0 m -> session_inv items0 (navigateItems direction m).
Proof.
  intros Hinv. unfold navigateItems.
  destruct (length (itemElements m) =? 0)%nat eqn:Hlen; [exact Hinv|].
  apply Nat.eqb_neq in Hlen.
  destruct Hinv as (Hit & Hb & Hop & Ha & Hh).
  assert (Hopen : isOpen m = true).
  { destruct (isOpen m); [reflexivity|]. destruct Hop as [Hnil _].
    rewrite Hnil in Hlen. simpl in Hlen. lia. }
  rewrite Hopen in Hop. destruct Hop as [Hrows Hcalls].
  assert (Hne : items0 <> []).
  { intros ->. simpl in Hrows. lia. }
  set (m1 := match hoveredIndex m with
             | Some h => set_hoveredIndex None (set_activeIndex h m)
             | None => m
             end).
  assert (H1 : items m1 = items0 /\ itemElements m1 = itemElements m
               /\ isOpen m1 = true /\ calls m1 = [] /\ hoveredIndex m1 = None).
  { subst m1. destruct (hoveredIndex m) eqn:Hhov; cbn; auto. }
  destruct H1 as (Hit1 & Hels1 & Hop1 & Hc1 & Hh1).
  rewrite Hels1.
  set (n := Z.of_nat (length (itemElements m))).
  set (newIndex := activeIndex m1 + direction).
  assert (Hn : 0 < n /\ n = Z.of_nat (length items0)) by (subst n; lia).
  destruct (newIndex <? 0) eqn:Hlt;
    [|destruct (newIndex >=? n) eqn:Hge];
    (apply session_inv_focusItem; cbn;
     [ exact Hit1
     | rewrite Hels1; exact Hb
     | rewrite Hop1, Hels1; auto
     | lia
     | rewrite Hh1; discriminate ]).
Qed.

Lemma session_inv_dispatch items0 m ev :
  session_inv items0 m -> session_inv items0 (dispatch m ev).
Proof.
  intros Hinv. destruct ev as [k | row | row | row]; cbn [dispatch].
  - destruct k; cbn [keydown].
    + now apply session_inv_navigateItems.
    + now apply session_inv_navigateItems.
    + destruct ((activeIndex m >=? 0)
                && (activeIndex m <? Z.of_nat (length (itemElements m))));
        [|exact Hinv].
      destruct (itemElements m !! Z.to_nat (activeIndex m)) as [el|] eqn:Hel;
        [|exact Hinv].
      apply session_inv_selectItem; [exact Hinv|].
      now destruct (rows_imply_open _ _ _ _ Hinv Hel).
    + pose proof (calls_bounded _ _ Hinv) as Hc.
      destruct Hinv as (Hit & _ & _ & Ha & _). now apply session_inv_close.
  - unfold on_row. destruct (itemElements m !! row) as [el|] eqn:Hel;
      [|exact Hinv].
    apply session_inv_selectItem; [exact Hinv|].
    now destruct (rows_imply_open _ _ _ _ Hinv Hel).
  - unfold on_row. destruct (itemElements m !! row) as [el|] eqn:Hel;
      [|exact Hinv].
    unfold mouseover.
    destruct (rows_imply_open _ _ _ _ Hinv Hel) as (_ & _ & _ & ->).
    apply session_inv_handleMouseOver; [exact Hinv|].
    now apply lookup_lt_Some in Hel.
  - unfold on_row. destruct (itemElements m !! row) as [el|]; [|exact Hinv].
    now apply session_inv_handleMouseLeave.
Qed.

Lemma run_snoc (evs : list Event) (ev : Event) m :
  run (evs ++ [ev]) m = dispatch (run evs m) ev.
Proof. unfold run. now rewrite fold_left_app. Qed.

Lemma session_inv_run items0 evs : forall m,
  session_inv items0 m -> session_inv items0 (run evs m).
Proof.
  induction evs as [|ev evs IH]; intros m Hinv; [exact Hinv|].
  apply IH. now apply session_inv_dispatch.
Qed.

(** Every state of a session satisfies the invariant. *)
Lemma session_inv_reachable (items0 : list T) (cb : T -> list E)
    (title : string) (evs : list Event) :
  session_inv items0 (run evs (open (new items0 cb title))).
Proof. apply session_inv_run, session_inv_open. Qed.

Lemma open_row items0 m (i : nat) :
  session_inv items0 m -> isOpen m = true -> (i < length items0)%nat ->
  exists el, itemElements m !! i = Some el /\ boundIndex el = i.
Proof.
  intros (_ & Hb & Hop & _ & _) Hopen Hi. rewrite Hopen in Hop.
  destruct Hop as [Hlen _].
  destruct (lookup_lt_is_Some_2 (itemElements m) i) as [el Hel]; [lia|].
  eauto.
Qed.

(** Once closed, a modal makes no further call, whatever is done to it. *)
Lemma closed_dispatch items0 m ev :
  session_inv items0 m -> isOpen m = false ->
  isOpen (dispatch m ev) = false /\ calls (dispatch m ev) = calls m.
Proof.
  intros (_ & _ & Hop & _ & _) Hclosed. rewrite Hclosed in Hop.
  destruct Hop as [Hnil _].
  destruct ev as [[ | | | ] | row | row | row]; cbn [dispatch keydown];
    unfold navigateItems, on_row; rewrite ?Hnil, ?lookup_nil; cbn;
    try match goal with |- context [if ?b then _ else _] => destruct b end;
    auto.
Qed.

Lemma closed_run items0 evs : forall m,
  session_inv items0 m -> isOpen m = false ->
  isOpen (run evs m) = false /\ calls (run evs m) = calls m.
Proof.
  induction evs as [|ev evs IH]; intros m Hinv Hclosed; [auto|].
  destruct (closed_dispatch _ _ ev Hinv Hclosed) as [Hc1 Hc2].
  cbn [run fold_left]. fold (run evs (dispatch m ev)).
  destruct (IH (dispatch m ev)) as [Hr1 Hr2];
    [now apply session_inv_dispatch | assumption |].
  split; [assumption | congruence].
Qed.

(** A selection on an open modal: one call, with the item, and the modal
    is closed. *)
Lemma selectItem_open items0 m (i : nat) item :
  session_inv items0 m -> isOpen m = true -> items0 !! i = Some item ->
  selectItem (Z.of_nat i) m = close (set_calls [item] m).
Proof.
  intros (Hit & _ & Hop & _ & _) Hopen Hi. rewrite Hopen in Hop.
  destruct Hop as [_ Hc]. unfold selectItem. rewrite Hit, Nat2Z.id, Hi, Hc.
  apply lookup_lt_Some in Hi.
  destruct (Z.geb_spec (Z.of_nat i) 0), (Z.ltb_spec (Z.of_nat i) (Z.of_nat (length items0)));
    try lia. reflexivity.
Qed.

(** Enter clicks the row at [activeIndex], whose listener selects that
    index. *)
Lemma enter_is_selectItem items0 m :
  session_inv items0 m -> isOpen m = true ->
  keydown Enter m = selectItem (activeIndex m) m.
Proof.
  intros Hinv Hopen. pose proof Hinv as (Hit & Hb & Hop & Ha & _).
  rewrite Hopen in Hop. destruct Hop as [Hlen _].
  cbn [keydown]. unfold selectItem. rewrite Hlen, Hit.
  destruct ((activeIndex m >=? 0)
            && (activeIndex m <? Z.of_nat (length items0))) eqn:Hguard;
    [|reflexivity].
  assert (Hr : (Z.to_nat (activeIndex m) < length items0)%nat) by lia.
  destruct (open_row _ _ _ Hinv Hopen Hr) as (el & -> & Hel).
  unfold click, selectItem. rewrite Hel, Hit, Z2Nat.id by lia.
  now rewrite Hguard.
Qed.

Lemma navigateItems_open items0 m direction :
  session_inv items0 m -> isOpen m = true -> items0 <> [] ->
  let n := Z.of_nat (length items0) in
  let newIndex := navigation_base m + direction in
  let m' := navigateItems direction m in
  activeIndex m'
    = (if newIndex <? 0 then n - 1 else if newIndex >=? n then 0 else newIndex)
  /\ hoveredIndex m' = None
  /\ isOpen m' = true
  /\ highlighted m' = [Z.to_nat (activeIndex m')].
Proof.
  intros Hinv Hopen Hne. pose proof Hinv as (Hit & Hb & Hop & Ha & Hh).
  rewrite Hopen in Hop. destruct Hop as [Hlen _].
  assert (Hpos : (0 < length items0)%nat).
  { destruct items0; [congruence | simpl; lia]. }
  cbv zeta. unfold navigateItems, navigation_base.
  destruct (length (itemElements m) =? 0)%nat eqn:Hz;
    [apply Nat.eqb_eq in Hz; lia|].
  assert (Hbase : 0 <= default (activeIndex m) (hoveredIndex m)
                  < Z.of_nat (length items0)).
  { destruct (hoveredIndex m) as [h|] eqn:Hhov; cbn.
    - destruct (Hh h eq_refl) as [Hr _]. lia.
    - destruct Ha as [? Hlt]. split; [assumption | now apply Hlt]. }
  destruct (hoveredIndex m) as [h|] eqn:Hhov;
    cbn [from_option id activeIndex set_activeIndex set_hoveredIndex
         itemElements hoveredIndex] in *;
    rewrite ?Hhov, Hlen;
    set (newIndex := _ + direction);
    destruct (newIndex <? 0) eqn:Hlt; [|destruct (newIndex >=? _) eqn:Hge| |
      destruct (newIndex >=? _) eqn:Hge];
    rewrite highlighted_focusItem;
    cbn [focusItem from_option id activeIndex set_activeIndex set_hoveredIndex
         set_itemElements itemElements hoveredIndex isOpen];
    rewrite ?Hhov, Hlen;
    (repeat split; try assumption; try reflexivity);
    cbv zeta;
    match goal with
    | |- (if (0 <=? ?x) && (?x <? ?y) then _ else _) = _ =>
        destruct (Z.leb_spec 0 x), (Z.ltb_spec x y); simpl; try reflexivity; lia
    end.
Qed.

Lemma wrap_down (n b : Z) :
  0 <= b < n ->
  (if b + 1 <? 0 then n - 1 else if b + 1 >=? n then 0 else b + 1)
  = (b + 1) mod n.
Proof.
  intros Hb. destruct (Z.ltb_spec (b + 1) 0); [lia|].
  destruct (Z.geb_spec (b + 1) n).
  - replace (b + 1) with n by lia. now rewrite Z.mod_same by lia.
  - now rewrite Z.mod_small by lia.
Qed.

Lemma wrap_up (n b : Z) :
  0 <= b < n ->
  (if b + -1 <? 0 then n - 1 else if b + -1 >=? n then 0 else b + -1)
  = (b - 1 + n) mod n.
Proof.
  intros Hb. destruct (Z.ltb_spec (b + -1) 0).
  - replace (b - 1 + n) with (n - 1) by lia. now rewrite Z.mod_small by lia.
  - destruct (Z.geb_spec (b + -1) n); [lia|].
    replace (b - 1 + n) with (b - 1 + 1 * n) by lia.
    rewrite Z.mod_add by lia. rewrite Z.mod_small by lia. lia.
Qed.

Lemma navigation_base_range items0 m :
  session_inv items0 m -> isOpen m = true -> items0 <> [] ->
  0 <= navigation_base m < Z.of_nat (length items0).
Proof.
  intros (_ & _ & Hop & Ha & Hh) Hopen Hne. rewrite Hopen in Hop.
  destruct Hop as [Hlen _]. unfold navigation_base.
  destruct (hoveredIndex m) as [h|] eqn:Hhov; cbn.
  - destruct (Hh h eq_refl) as [Hr _]. lia.
  - destruct Ha as [? Hlt]. split; [assumption | now apply Hlt].
Qed.

(** The events that move or set the highlight leave the modal open. *)
Lemma highlight_event_open items0 m ev :
  session_inv items0 m -> is_highlight_event ev = true ->
  isOpen (dispatch m ev) = isOpen m.
Proof.
  intros _ Hev.
  destruct ev as [[ | | | ] | row | row | row]; try discriminate;
    cbn [dispatch keydown]; unfold navigateItems, on_row.
  - destruct (length (itemElements m) =? 0)%nat; [reflexivity|].
    destruct (hoveredIndex m); cbn;
      repeat match goal with |- context [if ?b then _ else _] => destruct b end;
      reflexivity.
  - destruct (length (itemElements m) =? 0)%nat; [reflexivity|].
    destruct (hoveredIndex m); cbn;
      repeat match goal with |- context [if ?b then _ else _] => destruct b end;
      reflexivity.
  - destruct (itemElements m !! row); reflexivity.
  - destruct (itemElements m !! row); reflexivity.
Qed.

Lemma highlight_run_open items0 evs : forall m,
  session_inv items0 m -> forallb is_highlight_event evs = true ->
  isOpen (run evs m) = isOpen m.
Proof.
  induction evs as [|ev evs IH]; intros m Hinv Hevs; [reflexivity|].
  cbn [forallb] in Hevs. apply andb_true_iff in Hevs as [Hev Hevs].
  cbn [run fold_left]. fold (run evs (dispatch m ev)).
  rewrite IH by (auto using session_inv_dispatch).
  now apply (highlight_event_open items0).
Qed.

Lemma textContent_focused els : forall g : nat -> bool,
  map textContent (imap (fun i el => set_focused (g i) el) els)
  = map textContent els.
Proof.
  induction els as [|el els IH]; intros g; [reflexivity|].
  cbn [imap map]. f_equal. exact (IH (fun i => g (S i))).
Qed.

Lemma textContent_rows (l : list T) : forall h : nat -> nat,
  map textContent
      (imap (fun index item => mkEl (selectableItem.name item) 0 false (h index)) l)
  = map selectableItem.name l.
Proof.
  induction l as [|x l IH]; intros h; [reflexivity|].
  cbn [imap map]. f_equal. exact (IH (fun i => h (S i))).
Qed.

(** The modal just after [open]. *)
Lemma open_new_fields (its : list T) (cb : T -> list E) (title : string) :
  let m := open (new its cb title) in
  items m = its /\ callback m = cb /\ isOpen m = true
  /\ titleEl m = Some title /\ calls m = []
  /\ map textContent (itemElements m) = map selectableItem.name its.
Proof.
  cbv zeta. unfold open, onOpen, new.
  cbn [set_isOpen set_titleEl set_itemElements set_activeIndex items callback
       modalTitle activeIndex hoveredIndex itemElements titleEl isOpen calls].
  destruct (0 <? length _)%nat;
    cbn [focusItem set_isOpen set_titleEl set_itemElements set_activeIndex items
         callback modalTitle activeIndex hoveredIndex itemElements titleEl
         isOpen calls];
    repeat split.
  - rewrite (textContent_focused _ (fun i => Z.of_nat i =? default (-1) (Some 0))).
    apply (textContent_rows its (fun i => i)).
  - apply (textContent_rows its (fun i => i)).
Qed.

(** C8: in a session over a non-empty list, opening sets [activeIndex] to 0
    with row 0 the one highlighted row, and after any sequence of arrow-key,
    pointer-enter and pointer-leave events the modal is still open and
    [activeIndex] is a valid index; an arrow key moves it circularly, one
    step from the hovered row if there is one and from itself otherwise. *)
Theorem activeIndex_stays_valid (items0 : list T) (cb : T -> list E)
    (title : string) (evs : list Event) :
  items0 <> [] ->
  forallb is_highlight_event evs = true ->
  let n := Z.of_nat (length items0) in
  let opened := open (new items0 cb title) in
  let m := run evs opened in
  (isOpen opened = true /\ activeIndex opened = 0
   /\ hoveredIndex opened = None /\ highlighted opened = [0%nat])
  /\ isOpen m = true
  /\ 0 <= activeIndex m < n
  /\ activeIndex (keydown ArrowDown m) = (navigation_base m + 1) mod n
  /\ activeIndex (keydown ArrowUp m) = (navigation_base m - 1 + n) mod n.
Proof.
  intros Hne Hevs n opened m.
  assert (Hpos : (0 < length items0)%nat).
  { destruct items0; [congruence | simpl; lia]. }
  assert (Hopened : isOpen opened = true /\ activeIndex opened = 0
                    /\ hoveredIndex opened = None /\ highlighted opened = [0%nat]).
  { subst opened. unfold open, onOpen, new.
    cbn [set_isOpen set_titleEl set_itemElements set_activeIndex items callback
         modalTitle activeIndex hoveredIndex itemElements titleEl isOpen calls].
    rewrite length_imap, (proj2 (Nat.ltb_lt _ _) Hpos).
    rewrite highlighted_focusItem. cbn. rewrite length_imap.
    repeat split.
    destruct (Z.ltb_spec 0 (Z.of_nat (length items0))); [reflexivity | lia]. }
  pose proof (session_inv_reachable items0 cb title evs) as Hinv.
  fold opened in Hinv. fold m in Hinv.
  assert (Hopen : isOpen m = true).
  { subst m. rewrite (highlight_run_open items0) by
      (subst opened; auto using session_inv_open).
    apply Hopened. }
  split; [exact Hopened|]. split; [exact Hopen|].
  pose proof (navigation_base_range _ _ Hinv Hopen Hne) as Hbase.
  split; [|split].
  - destruct Hinv as (_ & _ & _ & [H0 Hlt] & _). split; [exact H0 | now apply Hlt].
  - cbn [keydown].
    destruct (navigateItems_open _ _ 1 Hinv Hopen Hne) as (-> & _).
    now apply wrap_down.
  - cbn [keydown].
    destruct (navigateItems_open _ _ (-1) Hinv Hopen Hne) as (-> & _).
    now apply wrap_up.
Qed.

(** C2: in an open session, pointer-enter on row [i] followed by the down
    arrow leaves the active index, and the one highlighted row, at
    [(i + 1) mod n] and no row hovered, whatever [activeIndex] was before the
    hover; when the hover was on another row than the active one, the result
    is not [activeIndex + 1]. *)
Theorem hover_then_arrow_down (items0 : list T) (cb : T -> list E)
    (title : string) (evs : list Event) (i : nat) :
  let n := Z.of_nat (length items0) in
  let m := run evs (open (new items0 cb title)) in
  isOpen m = true ->
  (i < length items0)%nat ->
  let m' := run [MouseOver i; KeyDown ArrowDown] m in
  activeIndex m' = (Z.of_nat i + 1) mod n
  /\ highlighted m' = [Z.to_nat ((Z.of_nat i + 1) mod n)]
  /\ hoveredIndex m' = None
  /\ isOpen m' = true
  /\ (activeIndex m <> Z.of_nat i -> activeIndex m' <> activeIndex m + 1).
Proof.
  intros n m Hopen Hi m'.
  pose proof (session_inv_reachable items0 cb title evs) as Hinv. fold m in Hinv.
  assert (Hne : items0 <> []) by (intros ->; simpl in Hi; lia).
  destruct (open_row _ _ _ Hinv Hopen Hi) as (el & Hel & Hbound).
  set (m1 := handleMouseOver (Z.of_nat i) m).
  assert (Hm' : m' = navigateItems 1 m1).
  { subst m' m1. cbn [run fold_left dispatch keydown]. unfold on_row.
    rewrite Hel. unfold mouseover. now rewrite Hbound. }
  assert (Hinv1 : session_inv items0 m1).
  { apply session_inv_handleMouseOver; [exact Hinv|].
    now apply lookup_lt_Some in Hel. }
  assert (Hopen1 : isOpen m1 = true) by exact Hopen.
  assert (Hbase1 : navigation_base m1 = Z.of_nat i) by reflexivity.
  destruct (navigateItems_open _ _ 1 Hinv1 Hopen1 Hne) as (Ha & Hh & Ho & Hl).
  rewrite Hbase1, wrap_down in Ha by lia.
  rewrite Hm'. fold n in Ha.
  split; [exact Ha|]. split; [now rewrite Hl, Ha|]. split; [exact Hh|].
  split; [exact Ho|].
  intros Hdiff. rewrite Ha.
  destruct Hinv as (_ & _ & _ & [H0 Hlt] & _). specialize (Hlt Hne).
  intros Heq.
  destruct (Z.eq_dec (Z.of_nat i + 1) n) as [Hwrap | Hnowrap].
  - rewrite Hwrap, Z.mod_same in Heq by lia. lia.
  - rewrite Z.mod_small in Heq by lia. lia.
Qed.

(** C3: in an open session, selecting a valid index calls the callback once,
    with the item at that index, and closes the modal, and nothing that
    happens afterwards calls it again; Escape closes the modal with no call,
    then or later; and in no state of a session has the callback been called
    more than once. *)
Theorem callback_at_most_once (items0 : list T) (cb : T -> list E)
    (title : string) (evs : list Event) :
  let m := run evs (open (new items0 cb title)) in
  (isOpen m = true ->
   forall (i : nat) (item : T), items0 !! i = Some item ->
     let m' := selectItem (Z.of_nat i) m in
     dispatch m (Click i) = m'
     /\ calls m' = [item]
     /\ isOpen m' = false
     /\ forall later, calls (run later m') = [item])
  /\ (isOpen m = true ->
      calls (keydown Escape m) = []
      /\ isOpen (keydown Escape m) = false
      /\ forall later, calls (run later (keydown Escape m)) = [])
  /\ (length (calls m) <= 1)%nat.
Proof.
  intros m.
  pose proof (session_inv_reachable items0 cb title evs) as Hinv. fold m in Hinv.
  split; [|split].
  - intros Hopen i item Hi m'.
    assert (Hclick : dispatch m (Click i) = m').
    { apply lookup_lt_Some in Hi as Hlt.
      destruct (open_row _ _ _ Hinv Hopen Hlt) as (el & Hel & Hbound).
      cbn [dispatch]. unfold on_row, click. now rewrite Hel, Hbound. }
    assert (Hm' : m' = close (set_calls [item] m))
      by now apply (selectItem_open items0).
    split; [exact Hclick|].
    split; [now rewrite Hm'|]. split; [now rewrite Hm'|].
    intros later.
    assert (Hinv' : session_inv items0 m').
    { rewrite <- Hclick. now apply session_inv_dispatch. }
    destruct (closed_run _ later _ Hinv') as [_ ->]; now rewrite Hm'.
  - intros Hopen.
    assert (Hc : calls m = []).
    { destruct Hinv as (_ & _ & Hop & _). rewrite Hopen in Hop. tauto. }
    assert (Hinv' : session_inv items0 (keydown Escape m)).
    { apply (session_inv_dispatch _ _ (KeyDown Escape) Hinv). }
    split; [exact Hc|]. split; [reflexivity|].
    intros later.
    destruct (closed_run _ later _ Hinv') as [_ ->]; [reflexivity | exact Hc].
  - now apply (calls_bounded items0).
Qed.

(** C10: [selectItem] on an index outside the list changes nothing: no call
    of the callback, the modal as open as before, its state as it was. *)
Theorem selectItem_outside_is_noop (m : SelectableModal T E) (index : Z) :
  index < 0 \/ Z.of_nat (length (items m)) <= index ->
  selectItem index m = m.
Proof.
  intros Hout. unfold selectItem.
  destruct (Z.geb_spec index 0), (Z.ltb_spec index (Z.of_nat (length (items m))));
    simpl; try reflexivity; lia.
Qed.

(** C1, as the code has it: in an open session Enter is a selection of
    [activeIndex]: it calls the callback with the item at [activeIndex] and
    closes the modal.  While a row [i] is hovered, that row is the one
    rendered as highlighted, so Enter activates the highlighted row when
    [i = activeIndex]. *)
Theorem enter_selects_activeIndex (items0 : list T) (cb : T -> list E)
    (title : string) (evs : list Event) :
  let m := run evs (open (new items0 cb title)) in
  isOpen m = true ->
  keydown Enter m = selectItem (activeIndex m) m
  /\ (forall item, items0 !! Z.to_nat (activeIndex m) = Some item ->
        calls (keydown Enter m) = [item] /\ isOpen (keydown Enter m) = false)
  /\ (forall i, hoveredIndex m = Some i ->
        highlighted m = [Z.to_nat i]
        /\ (i = activeIndex m ->
            forall item, items0 !! Z.to_nat i = Some item ->
              calls (keydown Enter m) = [item])).
Proof.
  intros m Hopen.
  pose proof (session_inv_reachable items0 cb title evs) as Hinv. fold m in Hinv.
  pose proof (enter_is_selectItem _ _ Hinv Hopen) as Henter.
  assert (Hsel : forall item, items0 !! Z.to_nat (activeIndex m) = Some item ->
                 keydown Enter m = close (set_calls [item] m)).
  { intros item Hitem. rewrite Henter.
    pose proof Hinv as (_ & _ & _ & [H0 _] & _).
    rewrite <- (Z2Nat.id (activeIndex m)) at 1 by exact H0.
    now apply (selectItem_open items0). }
  split; [exact Henter|]. split.
  - intros item Hitem. now rewrite (Hsel item Hitem).
  - intros i Hhov. split.
    + destruct Hinv as (_ & _ & _ & _ & Hh). now destruct (Hh i Hhov).
    + intros -> item Hitem. now rewrite (Hsel item Hitem).
Qed.

End ModalFacts.

(* ===================================================================== *)
(** * The jump command                                                    *)
(* ===================================================================== *)

Section JumpFacts.
Variables (key fileBasename : string).

(** Once an exception has left the loop, nothing of it runs any more. *)
Lemma scan_thrown_fixed (vs : list JSValue) : forall acc,
  thrown acc = true -> fold_left (scan_item key fileBasename) vs acc = acc.
Proof.
  induction vs as [|v vs IH]; intros acc Hacc; cbn [fold_left]; [reflexivity|].
  assert (Hstep : scan_item key fileBasename acc v = acc).
  { unfold scan_item. now rewrite Hacc. }
  rewrite Hstep. now apply IH.
Qed.

(** The loop shows no notice and navigates nowhere. *)
Lemma scan_logged_quiet (vs : list JSValue) : forall acc,
  notices (logged acc) = [] -> navigations (logged acc) = [] ->
  notices (logged (fold_left (scan_item key fileBasename) vs acc)) = []
  /\ navigations (logged (fold_left (scan_item key fileBasename) vs acc)) = [].
Proof.
  induction vs as [|v vs IH]; intros acc Hn Hv; cbn [fold_left]; [auto|].
  apply IH; unfold scan_item, notices, navigations in *;
    destruct (thrown acc); try assumption;
    destruct v as [ | | b | n | s | els | fields | k ];
    try destruct (Regex.test wikilinkPattern s);
    try match goal with
        | |- context [string_conversion_throws ?x] =>
            destruct (string_conversion_throws x)
        end;
    cbn [logged]; rewrite ?List.filter_app, ?Hn, ?Hv; reflexivity.
Qed.

Lemma scan_all_valid (links : list string) : forall acc,
  thrown acc = false ->
  Forall (fun l => Regex.test wikilinkPattern l = true) links ->
  fold_left (scan_item key fileBasename) (map JString links) acc
  = mkScan (validWikilinks acc ++ links) (invalidEntriesFound acc) (logged acc)
           false.
Proof.
  induction links as [|l links IH]; intros acc Hacc Hall; cbn [map fold_left].
  - rewrite app_nil_r. destruct acc. cbn in *. now subst.
  - apply Forall_cons in Hall as [Hl Hall].
    assert (Hstep : scan_item key fileBasename acc (JString l)
                    = mkScan (validWikilinks acc ++ [l])
                             (invalidEntriesFound acc) (logged acc) false).
    { unfold scan_item. now rewrite Hacc, Hl. }
    rewrite Hstep, IH by (reflexivity || exact Hall).
    cbn. now rewrite <- app_assoc.
Qed.

(** The loop over entries whose conversion to a string does not throw. *)
Lemma scan_general (vs : list JSValue) : forall acc,
  thrown acc = false ->
  Forall (fun v => string_conversion_throws v = false) vs ->
  fold_left (scan_item key fileBasename) vs acc
  = mkScan (validWikilinks acc ++ valid_links vs)
           (invalidEntriesFound acc || existsb (fun v => negb (isWikilinkEntry v)) vs)
           (logged acc
            ++ map (fun v => ConsoleError (LogInvalidEntry key v fileBasename))
                   (invalid_entries vs))
           false.
Proof.
  induction vs as [|v vs IH]; intros acc Hacc Hall.
  - cbn. rewrite !app_nil_r, orb_false_r. destruct acc. cbn in *. now subst.
  - apply Forall_cons in Hall as [Hv Hall]. cbn [fold_left].
    assert (Hstep : thrown (scan_item key fileBasename acc v) = false).
    { unfold scan_item. rewrite Hacc, Hv.
      destruct v as [ | | b | n | s | els | fields | k ];
        try destruct (Regex.test wikilinkPattern s); reflexivity. }
    rewrite (IH _ Hstep Hall). unfold scan_item, valid_links, invalid_entries.
    rewrite Hacc, Hv.
    destruct v as [ | | b | n | s | els | fields | k ];
      cbn [flat_map List.filter existsb isWikilinkEntry];
      try destruct (Regex.test wikilinkPattern s);
      cbn [validWikilinks invalidEntriesFound logged negb map orb Datatypes.app];
      rewrite <- ?app_assoc, ?orb_true_r, ?orb_false_r; reflexivity.
Qed.

(** The loop up to the first entry whose conversion to a string throws. *)
Lemma scan_throws (before after : list JSValue) (bad : JSValue) : forall acc,
  thrown acc = false ->
  Forall (fun v => string_conversion_throws v = false) before ->
  string_conversion_throws bad = true ->
  fold_left (scan_item key fileBasename) (before ++ bad :: after) acc
  = mkScan (validWikilinks acc ++ valid_links before)
           true
           (logged acc
            ++ map (fun v => ConsoleError (LogInvalidEntry key v fileBasename))
                   (invalid_entries before)
            ++ [Uncaught TypeError])
           true.
Proof.
  intros acc Hacc Hbefore Hbad.
  rewrite fold_left_app, (scan_general _ _ Hacc Hbefore). cbn [fold_left].
  rewrite scan_thrown_fixed.
  - unfold scan_item. cbn [thrown validWikilinks logged]. rewrite Hbad.
    destruct bad as [ | | b | n | s | els | fields | k ];
      try discriminate; now rewrite <- app_assoc.
  - unfold scan_item. cbn [thrown]. rewrite Hbad.
    destruct bad as [ | | b | n | s | els | fields | k ];
      try discriminate; reflexivity.
Qed.

End JumpFacts.

Lemma no_invalid_entries (vs : list JSValue) :
  existsb (fun v => negb (isWikilinkEntry v)) vs = false ->
  vs = map JString (valid_links vs)
  /\ invalid_entries vs = []
  /\ Forall (fun l => Regex.test wikilinkPattern l = true) (valid_links vs).
Proof.
  unfold valid_links, invalid_entries.
  induction vs as [|v vs IH]; cbn [existsb flat_map List.filter map];
    [repeat split; constructor|].
  intros [Hv Hvs]%orb_false_iff. destruct (IH Hvs) as (Heq & Hinv & Hall).
  rewrite Hv. apply negb_false_iff in Hv.
  destruct v as [ | | b | n | s | els | fields | k ]; try discriminate.
  cbn [isWikilinkEntry] in Hv. rewrite Hv. cbn [Datatypes.app map].
  split; [now rewrite <- Heq|]. split; [exact Hinv|]. now constructor.
Qed.

(** A valid entry is a string, and a string converts to itself. *)
Lemma valid_entry_converts (v : JSValue) :
  isWikilinkEntry v = true -> string_conversion_throws v = false.
Proof. destruct v; try discriminate. reflexivity. Qed.

Lemma invalid_entries_convert (vs : list JSValue) :
  Forall (fun v => string_conversion_throws v = false) (invalid_entries vs) ->
  Forall (fun v => string_conversion_throws v = false) vs.
Proof.
  unfold invalid_entries. induction vs as [|v vs IH]; cbn [List.filter];
    intros Hall; [constructor|].
  destruct (isWikilinkEntry v) eqn:Hv; cbn [negb] in Hall.
  - constructor; [now apply valid_entry_converts | now apply IH].
  - apply Forall_cons in Hall as [Hc Hall]. constructor; auto.
Qed.

(** A list either converts throughout or has a first entry that throws. *)
Lemma first_throwing_entry (vs : list JSValue) :
  Forall (fun v => string_conversion_throws v = false) vs
  \/ exists (before : list JSValue) (bad : JSValue) (after : list JSValue),
       vs = (before ++ bad :: after)%list
       /\ Forall (fun v => string_conversion_throws v = false) before
       /\ string_conversion_throws bad = true.
Proof.
  induction vs as [|v vs IH]; [left; constructor|].
  destruct (string_conversion_throws v) eqn:Hv.
  - right. exists [], v, vs. repeat split; [constructor | exact Hv].
  - destruct IH as [Hall | (before & bad & after & -> & Hb & Hbad)].
    + left. now constructor.
    + right. exists (v :: before), bad, after.
      repeat split; [now constructor | exact Hbad].
Qed.

(** C4, where the code departs from it: when an entry of the header list
    cannot be converted to a string (a mapping with a field [toString], or a
    list holding one), building the console message for it throws.  The
    command then stops with the [TypeError] after the console errors of the
    invalid entries before it: it shows no notice, navigates nowhere and
    opens no modal. *)
Theorem throwing_entry_stops_before_notice (app : App)
    (settings : JumpTopicNoteSettings) (activeFile : TFile)
    (fileCache : CachedMetadata) (fm : gmap string JSValue)
    (before after : list JSValue) (bad : JSValue) :
  getActiveFile app = Some activeFile ->
  getFileCache app activeFile = Some fileCache ->
  frontmatter fileCache = Some fm ->
  fm !! topicProperty settings = Some (JArray (before ++ bad :: after)) ->
  Forall (fun v => string_conversion_throws v = false) before ->
  string_conversion_throws bad = true ->
  let out := executeJumpLogic app settings in
  isWikilinkEntry bad = false
  /\ out = mkOutcome
             (map (fun item =>
                     ConsoleError (LogInvalidEntry (topicProperty settings) item
                                                   (basename activeFile)))
                  (invalid_entries before)
              ++ [Uncaught TypeError])
             None
  /\ notices (effects out) = []
  /\ navigations (effects out) = [].
Proof.
  intros Hfile Hcache Hfm Hfield Hbefore Hbad. cbv zeta.
  assert (Hout : executeJumpLogic app settings
                 = mkOutcome
                     (map (fun item =>
                             ConsoleError
                               (LogInvalidEntry (topicProperty settings) item
                                                (basename activeFile)))
                          (invalid_entries before)
                      ++ [Uncaught TypeError])
                     None).
  { unfold executeJumpLogic, prop. rewrite Hfile, Hcache, Hfm, Hfield.
    rewrite length_app. cbn [length].
    replace (length before + S (length after) =? 0)%nat with false
      by (symmetry; apply Nat.eqb_neq; lia).
    unfold scan.
    rewrite (scan_throws _ _ before after bad (mkScan [] false [] false)
                         eq_refl Hbefore Hbad).
    reflexivity. }
  split.
  { destruct (isWikilinkEntry bad) eqn:Hv; [|reflexivity].
    apply valid_entry_converts in Hv. congruence. }
  split; [exact Hout|]. rewrite Hout. cbn [effects].
  unfold notices, navigations. rewrite !List.filter_app.
  assert (Hq : forall l : list JSValue,
            List.filter is_notice
              (map (fun x => ConsoleError
                      (LogInvalidEntry (topicProperty settings) x
                                       (basename activeFile))) l) = []
            /\ List.filter is_navigation
                 (map (fun x => ConsoleError
                         (LogInvalidEntry (topicProperty settings) x
                                          (basename activeFile))) l) = []).
  { induction l as [|x l [IH1 IH2]]; cbn; auto. }
  destruct (Hq (invalid_entries before)) as [-> ->]. split; reflexivity.
Qed.

(** C9, where the code departs from it: when the configured field name is
    the name of a member of [Object.prototype], such as ["constructor"], and
    the note has no field of that name, reading the field yields the
    inherited member, and the command reports it as not being a list. *)
Theorem inherited_field_name_reports_error (app : App)
    (settings : JumpTopicNoteSettings) (activeFile : TFile)
    (fileCache : CachedMetadata) (fm : gmap string JSValue) :
  getActiveFile app = Some activeFile ->
  getFileCache app activeFile = Some fileCache ->
  frontmatter fileCache = Some fm ->
  fm !! topicProperty settings = None ->
  is_inherited_key (topicProperty settings) = true ->
  executeJumpLogic app settings
  = mkOutcome
      [ Notice (NoticeNotAList (topicProperty settings) (basename activeFile));
        ConsoleError
          (LogNotAList (topicProperty settings) (path activeFile)
                       (JInherited (topicProperty settings))) ]
      None.
Proof.
  intros Hfile Hcache Hfm Hfield Hkey.
  unfold executeJumpLogic, prop. now rewrite Hfile, Hcache, Hfm, Hfield, Hkey.
Qed.

(** X22: when the header has no field of the configured name and that name
    is not the name of a member of [Object.prototype], or when the field is
    undefined, null or an empty list, the command does nothing at all: no
    notice, no console output, no resolution, no file opened, no modal. *)
Theorem absent_or_empty_field_is_noop (app : App)
    (settings : JumpTopicNoteSettings) (activeFile : TFile)
    (fileCache : CachedMetadata) (fm : gmap string JSValue) :
  getActiveFile app = Some activeFile ->
  getFileCache app activeFile = Some fileCache ->
  frontmatter fileCache = Some fm ->
  (fm !! topicProperty settings = None
   /\ is_inherited_key (topicProperty settings) = false)
  \/ fm !! topicProperty settings = Some JUndefined
  \/ fm !! topicProperty settings = Some JNull
  \/ fm !! topicProperty settings = Some (JArray []) ->
  executeJumpLogic app settings = mkOutcome [] None.
Proof.
  intros Hfile Hcache Hfm Hfield.
  unfold executeJumpLogic, prop. rewrite Hfile, Hcache, Hfm.
  destruct Hfield as [[-> ->] | [-> | [-> | ->]]]; reflexivity.
Qed.

(** What one navigation does: it resolves the internal path of the link
    from the source note and, when a file is found, opens that file. *)
Lemma navigateToLink_resolves_then_opens (app : App) (link sourcePath : string) :
  head (navigateToLink app link sourcePath)
  = Some (Resolve (extractInternalPathFromWikilink link) sourcePath)
  /\ forall target,
       getFirstLinkpathDest app (extractInternalPathFromWikilink link) sourcePath
       = Some target ->
       In (OpenFile target) (navigateToLink app link sourcePath).
Proof.
  unfold navigateToLink. split; [reflexivity|].
  intros target ->. right. now left.
Qed.

(** C6: over a header list of valid links, one link is resolved and opened
    at once, with no modal; two or more open a modal titled
    ["Select superior topic note"] whose items and rows carry the display
    names of the links in header order, and a click on row [k] closes it and
    navigates to the [k]-th link.  A navigation resolves the internal path of
    its link and opens the file found. *)
Theorem one_link_jumps_many_links_ask (app : App)
    (settings : JumpTopicNoteSettings) (activeFile : TFile)
    (fileCache : CachedMetadata) (fm : gmap string JSValue)
    (links : list string) :
  getActiveFile app = Some activeFile ->
  getFileCache app activeFile = Some fileCache ->
  frontmatter fileCache = Some fm ->
  fm !! topicProperty settings = Some (JArray (map JString links)) ->
  Forall (fun l => Regex.test wikilinkPattern l = true) links ->
  (forall link, links = [link] ->
     executeJumpLogic app settings
     = mkOutcome (navigateToLink app link (path activeFile)) None)
  /\ ((2 <= length links)%nat ->
      exists m,
        executeJumpLogic app settings = mkOutcome [] (Some m)
        /\ isOpen m = true
        /\ titleEl m = Some "Select superior topic note"
        /\ map name (items m) = map extractDisplayNameFromWikilink links
        /\ map linkText (items m) = links
        /\ map textContent (itemElements m)
           = map extractDisplayNameFromWikilink links
        /\ forall (k : nat) (link : string), links !! k = Some link ->
             let m' := dispatch m (Click k) in
             isOpen m' = false
             /\ flat_map (callback m') (calls m')
                = navigateToLink app link (path activeFile))
  /\ (forall link sourcePath,
        head (navigateToLink app link sourcePath)
        = Some (Resolve (extractInternalPathFromWikilink link) sourcePath)
        /\ forall target,
             getFirstLinkpathDest app (extractInternalPathFromWikilink link)
                                  sourcePath = Some target ->
             In (OpenFile target) (navigateToLink app link sourcePath)).
Proof.
  intros Hfile Hcache Hfm Hfield Hall.
  assert (Hscan : scan (topicProperty settings) (basename activeFile)
                       (map JString links) = mkScan links false [] false).
  { unfold scan. now rewrite scan_all_valid. }
  split; [|split].
  - intros link ->.
    unfold executeJumpLogic, prop. rewrite Hfile, Hcache, Hfm, Hfield.
    rewrite length_map, Hscan. reflexivity.
  - intros Hlen.
    unfold executeJumpLogic, prop. rewrite Hfile, Hcache, Hfm, Hfield.
    rewrite length_map, Hscan.
    destruct links as [|l1 [|l2 links]]; cbn [length] in Hlen; try lia.
    cbn [length Nat.eqb].
    cbn [thrown invalidEntriesFound validWikilinks logged length Nat.eqb
         Nat.ltb Nat.leb].
    set (ls := l1 :: l2 :: links).
    set (modalItems := map _ ls).
    set (cb := fun selectedItem : ParentTopicItem => _).
    set (m := open (new modalItems cb "Select superior topic note")).
    destruct (open_new_fields modalItems cb "Select superior topic note")
      as (Hit & Hcb & Hop & Htitle & Hcalls & Htext).
    fold m in Hit, Hcb, Hop, Htitle, Hcalls, Htext.
    assert (Hnames : map name modalItems = map extractDisplayNameFromWikilink ls).
    { subst modalItems. rewrite map_map. reflexivity. }
    assert (Hlinks : map linkText modalItems = ls).
    { subst modalItems. rewrite map_map. cbn [linkText]. apply map_id. }
    exists m. split; [reflexivity|]. split; [exact Hop|].
    split; [exact Htitle|]. split; [now rewrite Hit|].
    split; [now rewrite Hit|]. split; [now rewrite Htext|].
    intros k link Hk.
    assert (Hitem : modalItems !! k
                    = Some {| name := extractDisplayNameFromWikilink link;
                              linkText := link |}).
    { subst modalItems. rewrite list_lookup_fmap, Hk. reflexivity. }
    pose proof (session_inv_open modalItems cb "Select superior topic note")
      as Hinv. fold m in Hinv.
    apply lookup_lt_Some in Hitem as Hlt.
    destruct (open_row _ _ _ Hinv Hop Hlt) as (el & Hel & Hbound).
    cbn [dispatch]. unfold on_row, click. rewrite Hel, Hbound.
    rewrite (selectItem_open _ _ _ _ Hinv Hop Hitem).
    cbn [close onClose set_isOpen set_calls set_titleEl set_itemElements
         set_hoveredIndex isOpen calls callback flat_map].
    split; [reflexivity|]. rewrite Hcb, app_nil_r. reflexivity.
  - intros link sourcePath. apply navigateToLink_resolves_then_opens.
Qed.

(* ===================================================================== *)
(** * The sample vault: instances and the counterexample                  *)
(* ===================================================================== *)

(** C1 as stated fails: with the pointer on the second row, that row is the
    one rendered as highlighted, and Enter selects the first item. *)
Lemma enter_ignores_hovered_row :
  let m := run [MouseOver 1%nat] sample_modal in
  isOpen m = true
  /\ hoveredIndex m = Some 1
  /\ highlighted m = [1%nat]
  /\ items m !! 1%nat = Some sample_B
  /\ calls (keydown Enter m) = [sample_A]
  /\ sample_A <> sample_B.
Proof. cbv zeta. repeat split; try reflexivity. discriminate. Qed.

Lemma enter_selects_activeIndex_witness :
  let m := run [MouseOver 1%nat] sample_modal in
  isOpen m = true
  /\ keydown Enter m = selectItem (activeIndex m) m.
Proof.
  cbv zeta. split; [reflexivity|].
  exact (proj1 (enter_selects_activeIndex
                  [sample_A; sample_B; sample_C] (callback sample_modal)
                  "Select superior topic note" [MouseOver 1%nat] eq_refl)).
Defined.

Lemma hover_then_arrow_down_witness :
  let m := run [KeyDown ArrowDown] sample_modal in
  let m' := run [MouseOver 2%nat; KeyDown ArrowDown] m in
  isOpen m = true /\ activeIndex m = 1 /\ activeIndex m' = (2 + 1) mod 3.
Proof.
  cbv zeta. split; [reflexivity|]. split; [reflexivity|].
  exact (proj1 (hover_then_arrow_down
                  [sample_A; sample_B; sample_C] (callback sample_modal)
                  "Select superior topic note" [KeyDown ArrowDown] 2
                  eq_refl ltac:(simpl; lia))).
Defined.

Lemma callback_at_most_once_witness :
  let m := run [KeyDown ArrowUp; MouseLeave 2%nat] sample_modal in
  isOpen m = true
  /\ calls (selectItem 1 m) = [sample_B]
  /\ calls (run [Click 0%nat; KeyDown Enter] (selectItem 1 m)) = [sample_B].
Proof.
  cbv zeta. split; [reflexivity|].
  pose proof (proj1 (callback_at_most_once
                       [sample_A; sample_B; sample_C] (callback sample_modal)
                       "Select superior topic note"
                       [KeyDown ArrowUp; MouseLeave 2%nat])
                    eq_refl 1%nat sample_B eq_refl) as (_ & Hcalls & _ & Hlater).
  split; [exact Hcalls | exact (Hlater [Click 0%nat; KeyDown Enter])].
Defined.

Lemma activeIndex_stays_valid_witness :
  let evs := [KeyDown ArrowUp; MouseOver 1%nat; MouseLeave 1%nat;
              KeyDown ArrowDown; KeyDown ArrowDown] in
  forallb is_highlight_event evs = true
  /\ 0 <= activeIndex (run evs sample_modal) < 3.
Proof.
  cbv zeta. split; [reflexivity|].
  exact (proj1 (proj2 (proj2
           (activeIndex_stays_valid
              [sample_A; sample_B; sample_C] (callback sample_modal)
              "Select superior topic note"
              [KeyDown ArrowUp; MouseOver 1%nat; MouseLeave 1%nat;
               KeyDown ArrowDown; KeyDown ArrowDown]
              ltac:(discriminate) eq_refl)))).
Defined.

Lemma selectItem_outside_is_noop_witness :
  Z.of_nat (length (items sample_modal)) <= 3
  /\ selectItem 3 sample_modal = sample_modal
  /\ selectItem (-1) sample_modal = sample_modal.
Proof.
  split; [simpl; lia|]. split.
  - apply (selectItem_outside_is_noop sample_modal 3). right. simpl. lia.
  - apply (selectItem_outside_is_noop sample_modal (-1)). left. lia.
Defined.

Lemma throwing_entry_stops_before_notice_witness :
  let field :=
    JArray [JNumber 7; JString "[[A]]";
            JObject [("toString", JString "x")]; JString "plain text"] in
  string_conversion_throws (JObject [("toString", JString "x")]) = true
  /\ executeJumpLogic (sample_app field) DEFAULT_SETTINGS
     = mkOutcome
         [ ConsoleError (LogInvalidEntry "parents" (JNumber 7) "child");
           Uncaught TypeError ]
         None.
Proof.
  cbv zeta. split; [reflexivity|].
  apply (throwing_entry_stops_before_notice
           (sample_app
              (JArray [JNumber 7; JString "[[A]]";
                       JObject [("toString", JString "x")]; JString "plain text"]))
           DEFAULT_SETTINGS sample_file
           {| frontmatter :=
                Some {[ "parents" :=
                          JArray [JNumber 7; JString "[[A]]";
                                  JObject [("toString", JString "x")];
                                  JString "plain text"] ]} |}
           {[ "parents" :=
                JArray [JNumber 7; JString "[[A]]";
                        JObject [("toString", JString "x")];
                        JString "plain text"] ]}
           [JNumber 7; JString "[[A]]"] [JString "plain text"]
           (JObject [("toString", JString "x")]));
    [reflexivity | reflexivity | reflexivity | reflexivity
    | repeat constructor | reflexivity].
Defined.

Lemma inherited_field_name_reports_error_witness :
  executeJumpLogic (sample_app (JArray [JString "[[A]]"]))
                   {| topicProperty := "constructor" |}
  = mkOutcome
      [ Notice (NoticeNotAList "constructor" "child");
        ConsoleError (LogNotAList "constructor" "notes/child.md"
                                  (JInherited "constructor")) ]
      None.
Proof.
  apply (inherited_field_name_reports_error
           (sample_app (JArray [JString "[[A]]"]))
           {| topicProperty := "constructor" |} sample_file
           {| frontmatter := Some {[ "parents" := JArray [JString "[[A]]"] ]} |}
           {[ "parents" := JArray [JString "[[A]]"] ]});
    reflexivity.
Defined.

Lemma absent_or_empty_field_is_noop_witness :
  executeJumpLogic (sample_app JNull) {| topicProperty := "topics" |}
  = mkOutcome [] None
  /\ executeJumpLogic (sample_app JNull) DEFAULT_SETTINGS = mkOutcome [] None
  /\ executeJumpLogic (sample_app (JArray [])) DEFAULT_SETTINGS = mkOutcome [] None.
Proof.
  split; [|split].
  - apply (absent_or_empty_field_is_noop (sample_app JNull)
             {| topicProperty := "topics" |}
             sample_file {| frontmatter := Some {[ "parents" := JNull ]} |}
             {[ "parents" := JNull ]});
      [reflexivity | reflexivity | reflexivity | left; split; reflexivity].
  - apply (absent_or_empty_field_is_noop (sample_app JNull) DEFAULT_SETTINGS
             sample_file {| frontmatter := Some {[ "parents" := JNull ]} |}
             {[ "parents" := JNull ]});
      [reflexivity | reflexivity | reflexivity | right; right; left; reflexivity].
  - apply (absent_or_empty_field_is_noop (sample_app (JArray [])) DEFAULT_SETTINGS
             sample_file {| frontmatter := Some {[ "parents" := JArray [] ]} |}
             {[ "parents" := JArray [] ]});
      [reflexivity | reflexivity | reflexivity | right; right; right; reflexivity].
Defined.

Lemma one_link_jumps_many_links_ask_witness :
  executeJumpLogic (sample_app (JArray [JString "[[Only Parent]]"])) DEFAULT_SETTINGS
  = mkOutcome
      (navigateToLink (sample_app (JArray [JString "[[Only Parent]]"]))
                      "[[Only Parent]]" (path sample_file))
      None.
Proof.
  apply (proj1 (one_link_jumps_many_links_ask
                  (sample_app (JArray [JString "[[Only Parent]]"]))
                  DEFAULT_SETTINGS sample_file
                  {| frontmatter :=
                       Some {[ "parents" := JArray [JString "[[Only Parent]]"] ]} |}
                  {[ "parents" := JArray [JString "[[Only Parent]]"] ]}
                  ["[[Only Parent]]"]
                  eq_refl eq_refl eq_refl eq_refl
                  ltac:(repeat constructor)));
    reflexivity.
Defined.

(** The header examples of the specification, run on the sample vault. *)
Example header_not_a_list :
  executeJumpLogic (sample_app (JString "not-a-list-string")) DEFAULT_SETTINGS
  = mkOutcome
      [ Notice (NoticeNotAList "parents" "child");
        ConsoleError (LogNotAList "parents" "notes/child.md"
                                  (JString "not-a-list-string")) ]
      None.
Proof. reflexivity. Qed.

Example header_only_parent :
  executeJumpLogic (sample_app (JArray [JString "[[Only Parent]]"])) DEFAULT_SETTINGS
  = mkOutcome
      [ Resolve "Only Parent" "notes/child.md";
        OpenFile {| path := "Only Parent.md"; basename := "Only Parent" |} ]
      None.
Proof. reflexivity. Qed.

Example header_two_parents :
  let out :=
    executeJumpLogic (sample_app (JArray [JString "[[A]]"; JString "[[B]]"]))
                     DEFAULT_SETTINGS in
  effects out = []
  /\ (map textContent <$> (itemElements <$> picker out)) = Some ["A"; "B"]
  /\ (fun m => flat_map (callback m) (calls (dispatch m (Click 1%nat))))
       <$> picker out
     = Some [ Resolve "B" "notes/child.md";
              OpenFile {| path := "B.md"; basename := "B" |} ].
Proof. cbv zeta. repeat split; reflexivity. Qed.

(* ===================================================================== *)
(** * The modal: what is on screen                                        *)
(* ===================================================================== *)

Section ScreenFacts.
Context {T E : Type} {HT : SelectableItem T}.
Implicit Types (m : SelectableModal T E).

Lemma focusItem_textContent index m :
  map textContent (itemElements (focusItem index m))
  = map textContent (itemElements m).
Proof.
  unfold focusItem. cbn [itemElements set_itemElements].
  apply (textContent_focused _ (fun i => Z.of_nat i =? default (-1) index)).
Qed.

Lemma navigateItems_static direction m :
  let m' := navigateItems direction m in
  items m' = items m /\ callback m' = callback m /\ modalTitle m' = modalTitle m
  /\ titleEl m' = titleEl m /\ isOpen m' = isOpen m /\ calls m' = calls m
  /\ map textContent (itemElements m') = map textContent (itemElements m).
Proof.
  cbv zeta. unfold navigateItems.
  destruct (length (itemElements m) =? 0)%nat; [repeat split|].
  rewrite focusItem_textContent.
  match goal with |- context [focusItem ?i ?x] => generalize i; set (m2 := x) end.
  intros ix.
  change (items (focusItem ix m2)) with (items m2).
  change (callback (focusItem ix m2)) with (callback m2).
  change (modalTitle (focusItem ix m2)) with (modalTitle m2).
  change (titleEl (focusItem ix m2)) with (titleEl m2).
  change (isOpen (focusItem ix m2)) with (isOpen m2).
  change (calls (focusItem ix m2)) with (calls m2).
  subst m2. destruct (hoveredIndex m); cbn;
    repeat match goal with |- context [if ?b then _ else _] => destruct b end;
    repeat split.
Qed.

Lemma selectItem_cases index m :
  selectItem index m = m
  \/ exists item, selectItem index m = close (set_calls (calls m ++ [item]) m).
Proof.
  unfold selectItem.
  destruct ((index >=? 0) && (index <? Z.of_nat (length (items m))));
    [|now left].
  destruct (items m !! Z.to_nat index) as [item|]; [right; eauto | now left].
Qed.

Lemma screen_inv_close (items0 : list T) (cb : T -> list E) title m :
  screen_inv items0 cb title m -> screen_inv items0 cb title (close m).
Proof.
  intros (Hcb & Ht & _ & _ & Ha & _). unfold screen_inv, close, onClose. cbn.
  repeat split; auto.
Qed.

Lemma screen_inv_set_calls (items0 : list T) (cb : T -> list E) title m l :
  screen_inv items0 cb title m -> screen_inv items0 cb title (set_calls l m).
Proof. intros Hs. exact Hs. Qed.

Lemma screen_inv_open (items0 : list T) (cb : T -> list E) (title : string) :
  screen_inv items0 cb title (open (new items0 cb title)).
Proof.
  destruct (open_new_fields items0 cb title) as (Hit & Hcb & Hop & Htitle & _ & Htext).
  unfold screen_inv. rewrite Hop. split; [exact Hcb|].
  split; [|split; [exact Htitle|split; [exact Htext|]]].
  - unfold open, onOpen, new.
    cbn [set_isOpen set_titleEl set_itemElements set_activeIndex items callback
         modalTitle activeIndex hoveredIndex itemElements titleEl isOpen calls].
    rewrite length_imap. destruct (0 <? length items0)%nat; reflexivity.
  - unfold open, onOpen, new.
    cbn [set_isOpen set_titleEl set_itemElements set_activeIndex items callback
         modalTitle activeIndex hoveredIndex itemElements titleEl isOpen calls].
    rewrite length_imap.
    destruct (0 <? length items0)%nat eqn:Hn.
    + split.
      * intros ->. discriminate.
      * intros _. right. rewrite highlighted_focusItem. cbn.
        rewrite length_imap. apply Nat.ltb_lt in Hn.
        destruct (Z.ltb_spec 0 (Z.of_nat (length items0))); [reflexivity | lia].
    + split; [reflexivity|]. intros _. left.
      apply Nat.ltb_ge in Hn. destruct items0; [reflexivity | simpl in Hn; lia].
Qed.

Lemma screen_inv_dispatch (items0 : list T) (cb : T -> list E) title m ev :
  session_inv items0 m -> screen_inv items0 cb title m ->
  screen_inv items0 cb title (dispatch m ev).
Proof.
  intros Hinv Hsc.
  assert (Hnav : forall d, screen_inv items0 cb title (navigateItems d m)).
  { intros d.
    destruct (navigateItems_static d m) as (_ & Hcb & Ht & Hte & Hop & _ & Htx).
    pose proof Hsc as (Hcb0 & Ht0 & Hte0 & Htx0 & Ha0 & Hh0).
    unfold screen_inv. rewrite Hcb, Ht, Hte, Hop, Htx.
    split; [exact Hcb0|]. split; [exact Ht0|]. split; [exact Hte0|].
    split; [exact Htx0|].
    destruct (isOpen m) eqn:Hopen.
    - destruct items0 as [|x items0].
      + assert (Hz : length (itemElements m) = 0%nat).
        { destruct Hinv as (_ & _ & Hrows & _). rewrite Hopen in Hrows. tauto. }
        unfold navigateItems. rewrite Hz. cbn [Nat.eqb]. split; assumption.
      + destruct (navigateItems_open _ _ d Hinv Hopen ltac:(discriminate))
          as (_ & _ & _ & Hl).
        split; [discriminate|]. intros _. now right.
    - assert (Hz : itemElements m = []).
      { destruct Hinv as (_ & _ & Hrows & _). rewrite Hopen in Hrows. tauto. }
      unfold navigateItems. rewrite Hz. cbn [length Nat.eqb]. split; assumption. }
  assert (Hsel : forall i, screen_inv items0 cb title (selectItem i m)).
  { intros i. destruct (selectItem_cases i m) as [-> | (item & ->)];
      [exact Hsc | now apply screen_inv_close]. }
  destruct ev as [[ | | | ] | row | row | row]; cbn [dispatch keydown];
    unfold on_row; auto.
  - destruct (_ && _); [|exact Hsc].
    destruct (itemElements m !! _); [apply Hsel | exact Hsc].
  - now apply screen_inv_close.
  - destruct (itemElements m !! row); [apply Hsel | exact Hsc].
  - destruct (itemElements m !! row) as [el|]; [|exact Hsc].
    destruct Hsc as (Hcb0 & Ht0 & Hte0 & Htx0 & Ha0 & _).
    unfold screen_inv, mouseover, handleMouseOver.
    rewrite focusItem_textContent. cbn.
    repeat split; try assumption. discriminate.
  - destruct (itemElements m !! row) as [el|]; [|exact Hsc].
    destruct Hsc as (Hcb0 & Ht0 & Hte0 & Htx0 & Ha0 & _).
    unfold screen_inv, mouseleave, handleMouseLeave.
    rewrite focusItem_textContent, highlighted_focusItem. cbn.
    repeat split; try assumption. intros _. now left.
Qed.

(** Every state of a session satisfies both invariants. *)
Lemma screen_inv_reachable (items0 : list T) (cb : T -> list E)
    (title : string) (evs : list Event) :
  session_inv items0 (run evs (open (new items0 cb title)))
  /\ screen_inv items0 cb title (run evs (open (new items0 cb title))).
Proof.
  induction evs as [|ev evs IH] using rev_ind.
  - split; [apply session_inv_open | apply screen_inv_open].
  - rewrite run_snoc. destruct IH as [Hinv Hsc].
    split; [now apply session_inv_dispatch | now apply screen_inv_dispatch].
Qed.

End ScreenFacts.

(* ===================================================================== *)
(** * The modal: further properties of a session                          *)
(* ===================================================================== *)

Section SessionProperties.
Context {T E : Type} {HT : SelectableItem T}.
Implicit Types (m : SelectableModal T E).

Lemma session_inv_hover_none_when_closed (items0 : list T) m :
  session_inv items0 m -> isOpen m = false ->
  itemElements m = [] /\ hoveredIndex m = None.
Proof.
  intros (_ & _ & Hop & _ & Hh) Hclosed. rewrite Hclosed in Hop.
  destruct Hop as [Hnil _]. split; [exact Hnil|].
  destruct (hoveredIndex m) as [h|]; [|reflexivity].
  destruct (Hh h eq_refl) as [Hr _]. rewrite Hnil in Hr. simpl in Hr. lia.
Qed.

Lemma highlighted_rows_exist (items0 : list T) m :
  session_inv items0 m -> highlighted m <> [] ->
  isOpen m = true /\ items0 <> [].
Proof.
  intros Hinv Hne. pose proof Hinv as (_ & _ & Hop & _ & _).
  destruct (isOpen m).
  - split; [reflexivity|]. intros ->. destruct Hop as [Hlen _].
    unfold highlighted in Hne.
    destruct (itemElements m); [now apply Hne | discriminate].
  - destruct Hop as [Hnil _]. unfold highlighted in Hne. rewrite Hnil in Hne.
    now contradiction Hne.
Qed.

(** X1: in every state of a session at most one row is rendered as highlighted;
    a highlighted row is a row of the open modal, and it is the hovered row
    or, when none is hovered, the row at [activeIndex]. *)
Theorem at_most_one_highlighted_row (items0 : list T) (cb : T -> list E)
    (title : string) (evs : list Event) :
  let m := run evs (open (new items0 cb title)) in
  (length (highlighted m) <= 1)%nat
  /\ forall r : nat, In r (highlighted m) ->
       isOpen m = true
       /\ (r < length items0)%nat
       /\ (hoveredIndex m = Some (Z.of_nat r)
           \/ (hoveredIndex m = None /\ activeIndex m = Z.of_nat r)).
Proof.
  intros m.
  destruct (screen_inv_reachable items0 cb title evs) as [Hinv Hsc].
  fold m in Hinv, Hsc.
  pose proof Hinv as (_ & _ & Hop & [Ha0 Ha1] & Hh).
  destruct Hsc as (_ & _ & _ & _ & _ & Hnone).
  assert (Hshape : highlighted m = []
                   \/ exists z, highlighted m = [Z.to_nat z] /\ 0 <= z
                        /\ (hoveredIndex m = Some z
                            \/ (hoveredIndex m = None /\ activeIndex m = z))).
  { destruct (hoveredIndex m) as [h|] eqn:Hhov.
    - destruct (Hh h eq_refl) as [Hr Hl]. right. exists h.
      split; [exact Hl|]. split; [lia | now left].
    - destruct (Hnone eq_refl) as [Hl | Hl]; [now left|].
      right. exists (activeIndex m). auto. }
  destruct Hshape as [Hl | (z & Hl & Hz & Hwhich)].
  - rewrite Hl. split; [simpl; lia | intros r []].
  - assert (Hne : highlighted m <> []) by (rewrite Hl; discriminate).
    destruct (highlighted_rows_exist _ _ Hinv Hne) as [Hopen Hitems].
    rewrite Hl. split; [simpl; lia|].
    intros r [<- | []]. rewrite Z2Nat.id by exact Hz.
    split; [exact Hopen|]. split; [|exact Hwhich].
    rewrite Hopen in Hop. destruct Hop as [Hlen _].
    destruct Hwhich as [Hhov | [_ Hact]].
    + destruct (Hh z Hhov) as [Hr _]. lia.
    + specialize (Ha1 Hitems). lia.
Qed.

Lemma navigation_base_after_arrow (items0 : list T) m direction :
  session_inv items0 m -> isOpen m = true -> items0 <> [] ->
  navigation_base (navigateItems direction m)
  = activeIndex (navigateItems direction m).
Proof.
  intros Hinv Hopen Hne.
  destruct (navigateItems_open _ _ direction Hinv Hopen Hne) as (_ & Hh & _).
  unfold navigation_base. now rewrite Hh.
Qed.

Lemma arrow_down_steps (items0 : list T) (k : nat) : forall m,
  session_inv items0 m -> isOpen m = true -> items0 <> [] ->
  let m' := run (replicate k (KeyDown ArrowDown)) m in
  session_inv items0 m' /\ isOpen m' = true
  /\ navigation_base m'
     = (navigation_base m + Z.of_nat k) mod Z.of_nat (length items0)
  /\ ((0 < k)%nat -> hoveredIndex m' = None
                     /\ highlighted m' = [Z.to_nat (activeIndex m')]).
Proof.
  induction k as [|k IH]; intros m Hinv Hopen Hne; cbv zeta.
  - cbn [replicate run fold_left]. split; [exact Hinv|]. split; [exact Hopen|].
    pose proof (navigation_base_range _ _ Hinv Hopen Hne).
    split; [|lia]. rewrite Z.add_0_r. now rewrite Z.mod_small.
  - cbn [replicate run fold_left dispatch keydown].
    fold (run (replicate k (KeyDown ArrowDown)) (navigateItems 1 m)).
    destruct (navigateItems_open _ _ 1 Hinv Hopen Hne) as (Ha & Hh & Ho & Hl).
    pose proof (navigation_base_range _ _ Hinv Hopen Hne) as Hb.
    rewrite wrap_down in Ha by exact Hb.
    assert (Hinv1 : session_inv items0 (navigateItems 1 m))
      by now apply session_inv_navigateItems.
    destruct (IH _ Hinv1 Ho Hne) as (Hinv' & Ho' & Hb' & Hrest).
    split; [exact Hinv'|]. split; [exact Ho'|]. split.
    + rewrite Hb', (navigation_base_after_arrow _ _ _ Hinv Hopen Hne), Ha.
      rewrite Zplus_mod_idemp_l. f_equal. lia.
    + intros _. destruct k as [|k]; [|apply Hrest; lia].
      cbn [replicate run fold_left]. auto.
Qed.

(** X2: in an open session over [n >= 1] items, pressing the down arrow [n]
    times brings the highlight back to where the keys started from: the
    hovered row if one was hovered, the active row otherwise. *)
Theorem arrow_down_full_cycle (items0 : list T) (cb : T -> list E)
    (title : string) (evs : list Event) :
  let m := run evs (open (new items0 cb title)) in
  isOpen m = true ->
  items0 <> [] ->
  let m' := run (replicate (length items0) (KeyDown ArrowDown)) m in
  activeIndex m' = navigation_base m
  /\ highlighted m' = [Z.to_nat (navigation_base m)]
  /\ hoveredIndex m' = None
  /\ isOpen m' = true.
Proof.
  intros m Hopen Hne m'.
  pose proof (session_inv_reachable items0 cb title evs) as Hinv. fold m in Hinv.
  destruct (arrow_down_steps items0 (length items0) m Hinv Hopen Hne)
    as (_ & Ho' & Hb' & Hrest). fold m' in Ho', Hb', Hrest.
  assert (Hpos : (0 < length items0)%nat).
  { destruct items0; [congruence | simpl; lia]. }
  destruct (Hrest Hpos) as [Hh Hl].
  pose proof (navigation_base_range _ _ Hinv Hopen Hne) as Hb.
  assert (Ha : activeIndex m' = navigation_base m).
  { unfold navigation_base in Hb' at 1. rewrite Hh in Hb'. cbn in Hb'.
    rewrite Hb'. replace (navigation_base m + Z.of_nat (length items0))
      with (navigation_base m + 1 * Z.of_nat (length items0)) by lia.
    rewrite Z.mod_add by lia. now apply Z.mod_small. }
  split; [exact Ha|]. split; [now rewrite Hl, Ha|]. auto.
Qed.

(** X3: in an open session the up arrow undoes the down arrow and the down
    arrow undoes the up arrow: after either pair the active, highlighted row
    is the one the keys started from. *)
Theorem arrow_up_undoes_arrow_down (items0 : list T) (cb : T -> list E)
    (title : string) (evs : list Event) :
  let m := run evs (open (new items0 cb title)) in
  isOpen m = true ->
  items0 <> [] ->
  let down_up := run [KeyDown ArrowDown; KeyDown ArrowUp] m in
  let up_down := run [KeyDown ArrowUp; KeyDown ArrowDown] m in
  activeIndex down_up = navigation_base m
  /\ highlighted down_up = [Z.to_nat (navigation_base m)]
  /\ activeIndex up_down = navigation_base m
  /\ highlighted up_down = [Z.to_nat (navigation_base m)].
Proof.
  intros m Hopen Hne. cbv zeta. cbn [run fold_left dispatch keydown].
  pose proof (session_inv_reachable items0 cb title evs) as Hinv. fold m in Hinv.
  pose proof (navigation_base_range _ _ Hinv Hopen Hne) as Hb.
  set (n := Z.of_nat (length items0)) in *.
  assert (Hpair : forall d1 d2 b1,
            activeIndex (navigateItems d1 m) = b1 -> 0 <= b1 < n ->
            (if b1 + d2 <? 0 then n - 1
             else if b1 + d2 >=? n then 0 else b1 + d2) = navigation_base m ->
            activeIndex (navigateItems d2 (navigateItems d1 m)) = navigation_base m
            /\ highlighted (navigateItems d2 (navigateItems d1 m))
               = [Z.to_nat (navigation_base m)]).
  { intros d1 d2 b1 Hb1 Hr1 Hwrap.
    destruct (navigateItems_open _ _ d1 Hinv Hopen Hne) as (_ & _ & Ho1 & _).
    assert (Hinv1 : session_inv items0 (navigateItems d1 m))
      by now apply session_inv_navigateItems.
    destruct (navigateItems_open _ _ d2 Hinv1 Ho1 Hne) as (Ha2 & _ & _ & Hl2).
    rewrite (navigation_base_after_arrow _ _ _ Hinv Hopen Hne), Hb1 in Ha2.
    fold n in Ha2. rewrite Hwrap in Ha2. split; [exact Ha2 | now rewrite Hl2, Ha2]. }
  destruct (navigateItems_open _ _ 1 Hinv Hopen Hne) as (Hd & _).
  destruct (navigateItems_open _ _ (-1) Hinv Hopen Hne) as (Hu & _).
  fold n in Hd, Hu.
  rewrite wrap_down in Hd by exact Hb. rewrite wrap_up in Hu by exact Hb.
  assert (Hdr : 0 <= (navigation_base m + 1) mod n < n) by (apply Z.mod_pos_bound; lia).
  assert (Hur : 0 <= (navigation_base m - 1 + n) mod n < n) by (apply Z.mod_pos_bound; lia).
  destruct (Hpair 1 (-1) _ Hd Hdr) as [H1 H2].
  { rewrite wrap_up by exact Hdr.
    replace ((navigation_base m + 1) mod n - 1 + n)
      with ((navigation_base m + 1) mod n + (n - 1)) by lia.
    rewrite Zplus_mod_idemp_l.
    replace (navigation_base m + 1 + (n - 1)) with (navigation_base m + 1 * n) by lia.
    rewrite Z.mod_add by lia. now apply Z.mod_small. }
  destruct (Hpair (-1) 1 _ Hu Hur) as [H3 H4].
  { rewrite wrap_down by exact Hur. rewrite Zplus_mod_idemp_l.
    replace (navigation_base m - 1 + n + 1) with (navigation_base m + 1 * n) by lia.
    rewrite Z.mod_add by lia. now apply Z.mod_small. }
  auto.
Qed.

(** X4: in an open session, pointer-enter on row [i] followed by the up arrow
    leaves the active, highlighted row at [(i - 1 + n) mod n] and no row
    hovered, whatever [activeIndex] was before. *)
Theorem hover_then_arrow_up (items0 : list T) (cb : T -> list E)
    (title : string) (evs : list Event) (i : nat) :
  let n := Z.of_nat (length items0) in
  let m := run evs (open (new items0 cb title)) in
  isOpen m = true ->
  (i < length items0)%nat ->
  let m' := run [MouseOver i; KeyDown ArrowUp] m in
  activeIndex m' = (Z.of_nat i - 1 + n) mod n
  /\ highlighted m' = [Z.to_nat ((Z.of_nat i - 1 + n) mod n)]
  /\ hoveredIndex m' = None
  /\ isOpen m' = true.
Proof.
  intros n m Hopen Hi m'.
  pose proof (session_inv_reachable items0 cb title evs) as Hinv. fold m in Hinv.
  assert (Hne : items0 <> []) by (intros ->; simpl in Hi; lia).
  destruct (open_row _ _ _ Hinv Hopen Hi) as (el & Hel & Hbound).
  set (m1 := handleMouseOver (Z.of_nat i) m).
  assert (Hm' : m' = navigateItems (-1) m1).
  { subst m' m1. cbn [run fold_left dispatch keydown]. unfold on_row.
    rewrite Hel. unfold mouseover. now rewrite Hbound. }
  assert (Hinv1 : session_inv items0 m1).
  { apply session_inv_handleMouseOver; [exact Hinv|].
    now apply lookup_lt_Some in Hel. }
  assert (Hopen1 : isOpen m1 = true) by exact Hopen.
  assert (Hbase1 : navigation_base m1 = Z.of_nat i) by reflexivity.
  destruct (navigateItems_open _ _ (-1) Hinv1 Hopen1 Hne) as (Ha & Hh & Ho & Hl).
  rewrite Hbase1, wrap_up in Ha by lia. fold n in Ha.
  rewrite Hm'. split; [exact Ha|]. split; [now rewrite Hl, Ha|]. auto.
Qed.

(** X5: in an open session, when the pointer leaves a row no row is rendered as
    highlighted and none is hovered, while the active index, the calls and
    the open state are as before; Enter then still selects the item at
    [activeIndex], and the down arrow moves on from [activeIndex]. *)
Theorem pointer_leave_clears_highlight (items0 : list T) (cb : T -> list E)
    (title : string) (evs : list Event) (row : nat) :
  let n := Z.of_nat (length items0) in
  let m := run evs (open (new items0 cb title)) in
  isOpen m = true ->
  (row < length items0)%nat ->
  let m' := dispatch m (MouseLeave row) in
  highlighted m' = []
  /\ hoveredIndex m' = None
  /\ activeIndex m' = activeIndex m
  /\ isOpen m' = true
  /\ calls m' = calls m
  /\ (forall item, items0 !! Z.to_nat (activeIndex m) = Some item ->
        calls (keydown Enter m') = [item])
  /\ activeIndex (keydown ArrowDown m') = (activeIndex m + 1) mod n.
Proof.
  intros n m Hopen Hrow m'.
  pose proof (session_inv_reachable items0 cb title evs) as Hinv. fold m in Hinv.
  assert (Hne : items0 <> []) by (intros ->; simpl in Hrow; lia).
  destruct (open_row _ _ _ Hinv Hopen Hrow) as (el & Hel & _).
  assert (Hm' : m' = handleMouseLeave m).
  { subst m'. cbn [dispatch]. unfold on_row. now rewrite Hel. }
  assert (Hinv' : session_inv items0 m').
  { rewrite Hm'. now apply session_inv_handleMouseLeave. }
  assert (Hopen' : isOpen m' = true) by (rewrite Hm'; exact Hopen).
  assert (Hact : activeIndex m' = activeIndex m) by now rewrite Hm'.
  assert (Hhov : hoveredIndex m' = None) by now rewrite Hm'.
  split. { rewrite Hm'. unfold handleMouseLeave. now rewrite highlighted_focusItem. }
  split; [exact Hhov|]. split; [exact Hact|]. split; [exact Hopen'|].
  split; [now rewrite Hm'|]. split.
  - intros item Hitem.
    rewrite (enter_is_selectItem _ _ Hinv' Hopen'), Hact.
    pose proof Hinv as (_ & _ & _ & [H0 _] & _).
    rewrite <- (Z2Nat.id (activeIndex m)) at 1 by exact H0.
    now rewrite (selectItem_open _ _ _ _ Hinv' Hopen' Hitem).
  - cbn [keydown].
    destruct (navigateItems_open _ _ 1 Hinv' Hopen' Hne) as (-> & _).
    unfold navigation_base. rewrite Hhov, Hact. cbn [from_option id].
    apply wrap_down. destruct Hinv as (_ & _ & _ & [H0 Hlt] & _).
    split; [exact H0 | now apply Hlt].
Qed.

(** X6: in an open session, pointer-enter on a row makes that row the hovered
    and the only highlighted one and changes nothing else: the active index,
    the calls made and the open state are as before. *)
Theorem pointer_enter_sets_highlight_only (items0 : list T) (cb : T -> list E)
    (title : string) (evs : list Event) (row : nat) :
  let m := run evs (open (new items0 cb title)) in
  isOpen m = true ->
  (row < length items0)%nat ->
  let m' := dispatch m (MouseOver row) in
  highlighted m' = [row]
  /\ hoveredIndex m' = Some (Z.of_nat row)
  /\ activeIndex m' = activeIndex m
  /\ isOpen m' = true
  /\ calls m' = calls m
  /\ map textContent (itemElements m') = map textContent (itemElements m).
Proof.
  intros m Hopen Hrow m'.
  pose proof (session_inv_reachable items0 cb title evs) as Hinv. fold m in Hinv.
  destruct (open_row _ _ _ Hinv Hopen Hrow) as (el & Hel & Hbound).
  assert (Hm' : m' = handleMouseOver (Z.of_nat row) m).
  { subst m'. cbn [dispatch]. unfold on_row, mouseover. now rewrite Hel, Hbound. }
  rewrite Hm'. unfold handleMouseOver.
  rewrite highlighted_focusItem, focusItem_textContent.
  cbn [from_option id itemElements set_hoveredIndex].
  apply lookup_lt_Some in Hel.
  destruct (Z.leb_spec 0 (Z.of_nat row)),
           (Z.ltb_spec (Z.of_nat row) (Z.of_nat (length (itemElements m))));
    try lia.
  cbn. rewrite Nat2Z.id. repeat split; assumption.
Qed.

(** X7: a modal opened over an empty list shows no row and never calls back:
    whatever the user does, there is no row, no highlight, no hover and no
    call, and the active index stays 0. *)
Theorem empty_list_modal_is_inert (cb : T -> list E) (title : string)
    (evs : list Event) :
  let m := run evs (open (new [] cb title)) in
  itemElements m = []
  /\ highlighted m = []
  /\ hoveredIndex m = None
  /\ activeIndex m = 0
  /\ calls m = [].
Proof.
  cbv zeta.
  assert (H : let m := run evs (open (new [] cb title)) in
              itemElements m = [] /\ hoveredIndex m = None
              /\ activeIndex m = 0 /\ calls m = []).
  { induction evs as [|ev evs IH] using rev_ind; cbv zeta.
    - repeat split.
    - rewrite run_snoc. destruct IH as (Hnil & Hh & Ha & Hc).
      destruct ev as [[ | | | ] | row | row | row]; cbn [dispatch keydown];
        unfold navigateItems, on_row; rewrite ?Hnil, ?lookup_nil;
        cbn [length Nat.eqb];
        try match goal with |- context [if ?b then _ else _] => destruct b end;
        cbn; auto. }
  destruct H as (Hnil & Hh & Ha & Hc). unfold highlighted. rewrite Hnil. auto.
Qed.

(** X8: over a list of one item every arrow key re-highlights that item: in an
    open session the active index is 0 and row 0 is the highlighted row after
    either arrow. *)
Theorem single_item_rehighlights_itself (x : T) (cb : T -> list E)
    (title : string) (evs : list Event) (k : Key) :
  let m := run evs (open (new [x] cb title)) in
  isOpen m = true ->
  k = ArrowUp \/ k = ArrowDown ->
  activeIndex (keydown k m) = 0
  /\ highlighted (keydown k m) = [0%nat]
  /\ hoveredIndex (keydown k m) = None.
Proof.
  intros m Hopen Hk.
  pose proof (session_inv_reachable [x] cb title evs) as Hinv. fold m in Hinv.
  assert (Hne : [x] <> []) by discriminate.
  pose proof (navigation_base_range _ _ Hinv Hopen Hne) as Hb. cbn in Hb.
  assert (Hbase : navigation_base m = 0) by lia.
  destruct Hk as [-> | ->]; cbn [keydown].
  - destruct (navigateItems_open _ _ (-1) Hinv Hopen Hne) as (Ha & Hh & _ & Hl).
    rewrite Hbase in Ha. cbn in Ha. rewrite Hl, Ha. auto.
  - destruct (navigateItems_open _ _ 1 Hinv Hopen Hne) as (Ha & Hh & _ & Hl).
    rewrite Hbase in Ha. cbn in Ha. rewrite Hl, Ha. auto.
Qed.

(** X9: throughout a session the items, the callback and the title of a modal
    are those it was built with; while it is open its heading shows the title
    and its rows show the names of the items, one row per item in the order
    of the list; once it is closed neither heading nor rows are left. *)
Theorem rows_show_item_names (items0 : list T) (cb : T -> list E)
    (title : string) (evs : list Event) :
  let m := run evs (open (new items0 cb title)) in
  items m = items0 /\ callback m = cb /\ modalTitle m = title
  /\ titleEl m = (if isOpen m then Some title else None)
  /\ map textContent (itemElements m)
     = (if isOpen m then map selectableItem.name items0 else []).
Proof.
  intros m.
  destruct (screen_inv_reachable items0 cb title evs) as [Hinv Hsc].
  fold m in Hinv, Hsc.
  destruct Hinv as (Hit & _). destruct Hsc as (Hcb & Ht & Hte & Htx & _).
  auto.
Qed.

(** X10: once a session has closed the modal, by Escape or by a selection, no
    event changes the modal any more. *)
Theorem closed_modal_ignores_events (items0 : list T) (cb : T -> list E)
    (title : string) (evs : list Event) (ev : Event) :
  let m := run evs (open (new items0 cb title)) in
  isOpen m = false ->
  dispatch m ev = m.
Proof.
  intros m Hclosed.
  destruct (screen_inv_reachable items0 cb title evs) as [Hinv Hsc].
  fold m in Hinv, Hsc.
  destruct (session_inv_hover_none_when_closed _ _ Hinv Hclosed) as [Hnil Hh].
  destruct Hsc as (_ & _ & Hte & _). rewrite Hclosed in Hte.
  destruct ev as [[ | | | ] | row | row | row]; cbn [dispatch keydown];
    unfold navigateItems, on_row; rewrite ?Hnil, ?lookup_nil;
    cbn [length Nat.eqb]; try reflexivity.
  - destruct (_ && _); reflexivity.
  - unfold close, onClose. destruct m as [its c t a h els te op cs].
    cbn in *. now subst.
Qed.

(** X11: opening a modal again after its session has closed shows what the first
    opening showed: the same title and rows, the first row active and
    highlighted, no row hovered.  Only the record of the calls made so far
    is kept. *)
Theorem reopen_starts_afresh (items0 : list T) (cb : T -> list E)
    (title : string) (evs : list Event) :
  let m := run evs (open (new items0 cb title)) in
  isOpen m = false ->
  open m = set_calls (calls m) (open (new items0 cb title)).
Proof.
  intros m Hclosed.
  destruct (screen_inv_reachable items0 cb title evs) as [Hinv Hsc].
  fold m in Hinv, Hsc.
  destruct (session_inv_hover_none_when_closed _ _ Hinv Hclosed) as [Hnil Hh].
  destruct Hinv as (Hit & _).
  destruct Hsc as (Hcb & Ht & Hte & _ & Ha & _). rewrite Hclosed in Hte.
  destruct m as [its c t a h els te op cs]. cbn in *. subst.
  unfold open, onOpen, new.
  cbn [set_isOpen set_titleEl set_itemElements set_activeIndex items callback
       modalTitle activeIndex hoveredIndex itemElements titleEl isOpen calls].
  rewrite length_imap.
  destruct items0 as [|x items0].
  - cbn. now rewrite Ha.
  - reflexivity.
Qed.

End SessionProperties.

(* ===================================================================== *)
(** * The jump command: further properties                                *)
(* ===================================================================== *)

(** X12: with an invalid entry in the header list, and when each invalid
    entry can be converted to a string, the command writes one console error
    per invalid entry, in header order, then shows the one warning; that is
    all it does. *)
Theorem invalid_entries_logged_in_order (app : App)
    (settings : JumpTopicNoteSettings) (activeFile : TFile)
    (fileCache : CachedMetadata) (fm : gmap string JSValue)
    (parentsList : list JSValue) :
  getActiveFile app = Some activeFile ->
  getFileCache app activeFile = Some fileCache ->
  frontmatter fileCache = Some fm ->
  fm !! topicProperty settings = Some (JArray parentsList) ->
  invalid_entries parentsList <> [] ->
  Forall (fun item => string_conversion_throws item = false)
         (invalid_entries parentsList) ->
  executeJumpLogic app settings
  = mkOutcome
      (map (fun item =>
              ConsoleError (LogInvalidEntry (topicProperty settings) item
                                            (basename activeFile)))
           (invalid_entries parentsList)
       ++ [Notice (NoticeInvalidEntries (topicProperty settings))])
      None.
Proof.
  intros Hfile Hcache Hfm Hfield Hinv Hconv.
  apply invalid_entries_convert in Hconv.
  unfold executeJumpLogic, prop. rewrite Hfile, Hcache, Hfm, Hfield.
  destruct parentsList as [|v vs]; [now contradiction Hinv|].
  cbn [length Nat.eqb]. unfold scan.
  rewrite (scan_general _ _ (v :: vs) (mkScan [] false [] false) eq_refl Hconv).
  cbn [thrown invalidEntriesFound logged orb Datatypes.app].
  destruct (existsb _ (v :: vs)) eqn:Hex; [reflexivity|].
  destruct (no_invalid_entries _ Hex) as (_ & Hnil & _). congruence.
Qed.

(** X13: when the header field holds anything but a list (a boolean, a number, a
    string or a mapping) the command shows the not-a-list notice, writes one
    console error with the value found, and does nothing else. *)
Theorem non_list_field_reports_error (app : App)
    (settings : JumpTopicNoteSettings) (activeFile : TFile)
    (fileCache : CachedMetadata) (fm : gmap string JSValue) (found : JSValue) :
  getActiveFile app = Some activeFile ->
  getFileCache app activeFile = Some fileCache ->
  frontmatter fileCache = Some fm ->
  fm !! topicProperty settings = Some found ->
  found <> JUndefined -> found <> JNull ->
  (forall elements, found <> JArray elements) ->
  executeJumpLogic app settings
  = mkOutcome
      [ Notice (NoticeNotAList (topicProperty settings) (basename activeFile));
        ConsoleError (LogNotAList (topicProperty settings) (path activeFile) found) ]
      None.
Proof.
  intros Hfile Hcache Hfm Hfield Hu Hn Ha.
  unfold executeJumpLogic, prop. rewrite Hfile, Hcache, Hfm, Hfield.
  destruct found as [ | | b | n | s | els | fields | k ]; try reflexivity;
    congruence.
Qed.

(** X14: without an active file, without cached metadata for it, or without front
    matter in the note, the command does nothing at all. *)
Theorem no_front_matter_is_noop (app : App) (settings : JumpTopicNoteSettings) :
  getActiveFile app = None
  \/ (exists activeFile,
        getActiveFile app = Some activeFile
        /\ (getFileCache app activeFile = None
            \/ exists fileCache,
                 getFileCache app activeFile = Some fileCache
                 /\ frontmatter fileCache = None)) ->
  executeJumpLogic app settings = mkOutcome [] None.
Proof.
  unfold executeJumpLogic.
  intros [-> | (f & -> & [-> | (c & -> & ->)])]; reflexivity.
Qed.

Lemma navigateToLink_cases (app : App) (link sourcePath : string) :
  let p := extractInternalPathFromWikilink link in
  (getFirstLinkpathDest app p sourcePath = None
   /\ navigateToLink app link sourcePath
      = [ Resolve p sourcePath; Notice (NoticeTargetMissing p);
          ConsoleError (LogTargetMissing link p sourcePath) ])
  \/ (exists f, getFirstLinkpathDest app p sourcePath = Some f
                /\ openFile app f = true
                /\ navigateToLink app link sourcePath
                   = [ Resolve p sourcePath; OpenFile f ])
  \/ (exists f, getFirstLinkpathDest app p sourcePath = Some f
                /\ openFile app f = false
                /\ navigateToLink app link sourcePath
                   = [ Resolve p sourcePath; OpenFile f;
                       Notice (NoticeOpenFailed link); ConsoleError LogOpenFailed ]).
Proof.
  cbv zeta. unfold navigateToLink.
  destruct (getFirstLinkpathDest app _ sourcePath) as [f|] eqn:Hres.
  - destruct (openFile app f) eqn:Hopen.
    + right. left. exists f. auto.
    + right. right. exists f. auto.
  - left. auto.
Qed.

(** X15: one navigation asks the resolver once, for the internal path of the
    link; it opens a file exactly when the resolver found one, and that file;
    it shows at most one notice, and none exactly when the file was found and
    opened. *)
Theorem navigateToLink_reports_failures (app : App) (link sourcePath : string) :
  let es := navigateToLink app link sourcePath in
  let p := extractInternalPathFromWikilink link in
  List.filter is_resolve es = [Resolve p sourcePath]
  /\ (length (notices es) <= 1)%nat
  /\ (notices es = [] <->
      exists f, getFirstLinkpathDest app p sourcePath = Some f
                /\ openFile app f = true)
  /\ (forall f, In (OpenFile f) es <->
                getFirstLinkpathDest app p sourcePath = Some f).
Proof.
  cbv zeta. unfold notices.
  destruct (navigateToLink_cases app link sourcePath)
    as [[Hres ->] | [(f & Hres & Hopen & ->) | (f & Hres & Hopen & ->)]];
    cbn; rewrite Hres.
  - split; [reflexivity|]. split; [lia|]. split.
    + split; [discriminate|]. intros (g & Hg & _). discriminate.
    + intros g. split; [|discriminate].
      intros [H | [H | [H | []]]]; discriminate.
  - split; [reflexivity|]. split; [lia|]. split.
    + split; [eauto | reflexivity].
    + intros g. split.
      * intros [H | [H | []]]; [discriminate | now injection H as ->].
      * intros [= ->]. auto.
  - split; [reflexivity|]. split; [lia|]. split.
    + split; [discriminate|]. intros (g & [= <-] & Hg). congruence.
    + intros g. split.
      * intros [H | [H | [H | [H | []]]]]; try discriminate.
        now injection H as ->.
      * intros [= ->]. auto.
Qed.

(** X16: what the command did tells what the header held.  It never shows more
    than one notice.  It resolves or opens something only when the header
    list is exactly one valid link, and then opens no modal.  It opens a modal
    only when the header list is two or more entries, all valid links, and
    then has no other effect; the modal lists those links in header order. *)
Theorem jump_outcome_reflects_header (app : App)
    (settings : JumpTopicNoteSettings) :
  let out := executeJumpLogic app settings in
  (length (notices (effects out)) <= 1)%nat
  /\ (navigations (effects out) <> [] ->
      picker out = None
      /\ exists activeFile fileCache fm link,
           getActiveFile app = Some activeFile
           /\ getFileCache app activeFile = Some fileCache
           /\ frontmatter fileCache = Some fm
           /\ fm !! topicProperty settings = Some (JArray [JString link])
           /\ Regex.test wikilinkPattern link = true
           /\ effects out = navigateToLink app link (path activeFile))
  /\ (forall m, picker out = Some m ->
      effects out = []
      /\ exists activeFile fileCache fm links,
           getActiveFile app = Some activeFile
           /\ getFileCache app activeFile = Some fileCache
           /\ frontmatter fileCache = Some fm
           /\ fm !! topicProperty settings = Some (JArray (map JString links))
           /\ (2 <= length links)%nat
           /\ Forall (fun l => Regex.test wikilinkPattern l = true) links
           /\ map linkText (items m) = links).
Proof.
  cbv zeta. unfold executeJumpLogic, prop.
  destruct (getActiveFile app) as [f|] eqn:Hfile;
    [|cbn; split; [lia|]; split; [congruence | discriminate]].
  destruct (getFileCache app f) as [c|] eqn:Hcache;
    [|cbn; split; [lia|]; split; [congruence | discriminate]].
  destruct (frontmatter c) as [fm|] eqn:Hfm;
    [|cbn; split; [lia|]; split; [congruence | discriminate]].
  destruct (fm !! topicProperty settings) as [v|] eqn:Hfield;
    [|destruct (is_inherited_key (topicProperty settings)); cbn;
      (split; [lia|]; split; [congruence | discriminate])].
  destruct v as [ | | b | n | s | vs | fields | k ];
    try (cbn; split; [lia|]; split; [congruence | discriminate]).
  destruct vs as [|v vs];
    [cbn; split; [lia|]; split; [congruence | discriminate]|].
  cbn [length Nat.eqb]. unfold scan.
  assert (Hq : forall l : list JSValue,
            List.filter is_notice
              (map (fun x => ConsoleError
                      (LogInvalidEntry (topicProperty settings) x (basename f))) l)
            = []
            /\ List.filter is_navigation
                 (map (fun x => ConsoleError
                         (LogInvalidEntry (topicProperty settings) x (basename f))) l)
               = []).
  { induction l as [|x l [IH1 IH2]]; cbn; auto. }
  destruct (first_throwing_entry (v :: vs))
    as [Hconv | (before & bad & after & -> & Hb & Hbad)].
  2: { rewrite (scan_throws _ _ before after bad (mkScan [] false [] false)
                            eq_refl Hb Hbad).
       cbn [thrown logged effects picker Datatypes.app].
       unfold notices, navigations. rewrite !List.filter_app.
       destruct (Hq (invalid_entries before)) as [-> ->]. cbn.
       split; [lia|]. split; [congruence | discriminate]. }
  rewrite (scan_general _ _ (v :: vs) (mkScan [] false [] false) eq_refl Hconv).
  cbn [thrown invalidEntriesFound validWikilinks logged orb Datatypes.app].
  destruct (existsb _ (v :: vs)) eqn:Hex.
  - cbn [effects picker]. unfold notices, navigations.
    rewrite !List.filter_app.
    destruct (Hq (invalid_entries (v :: vs))) as [-> ->]. cbn.
    split; [lia|]. split; [congruence | discriminate].
  - destruct (no_invalid_entries _ Hex) as (Heq & Hnil & Hall).
    rewrite Hnil. cbn [map].
    set (links := valid_links (v :: vs)) in *.
    assert (Hlen : length links = S (length vs)).
    { rewrite <- (length_map JString links), <- Heq. reflexivity. }
    clearbody links.
    destruct links as [|l1 [|l2 rest]]; [discriminate| |].
    + cbn [length Nat.eqb effects picker Datatypes.app JS.at_ lookup
           list_lookup from_option id].
      assert (Hle : (length (notices (navigateToLink app l1 (path f))) <= 1)%nat).
      { destruct (navigateToLink_cases app l1 (path f))
          as [[_ ->] | [(g & _ & _ & ->) | (g & _ & _ & ->)]]; cbn; lia. }
      split; [exact Hle|]. split; [|discriminate].
      intros _. split; [reflexivity|].
      rewrite Heq in Hfield. exists f, c, fm, l1.
      apply Forall_cons in Hall as [Hl1 _]. repeat split; assumption.
    + cbn [length Nat.eqb Nat.ltb Nat.leb effects picker].
      split; [simpl; lia|]. split; [intros H; now contradiction H|].
      intros m [= <-]. split; [reflexivity|].
      rewrite Heq in Hfield. exists f, c, fm, (l1 :: l2 :: rest).
      split; [reflexivity|]. split; [exact Hcache|]. split; [exact Hfm|].
      split; [exact Hfield|]. split; [simpl; lia|]. split; [exact Hall|].
      match goal with
      | |- map linkText (items (open (new ?its ?cb ?t))) = _ =>
          destruct (open_new_fields its cb t) as (-> & _)
      end.
      cbn [map linkText]. do 2 f_equal. rewrite map_map. apply map_id.
Qed.

(* ===================================================================== *)
(** * Parsing a wikilink: further properties                              *)
(* ===================================================================== *)

Lemma free_of_append c (a b : string) :
  free_of c (a +:+ b) = true <-> free_of c a = true /\ free_of c b = true.
Proof. unfold free_of. rewrite all_units_append. apply andb_true_iff. Qed.

Lemma split_parts_free c s :
  Forall (fun p => free_of c p = true) (JS.split c s).
Proof.
  induction s as [|a s IH]; cbn [JS.split].
  - repeat constructor.
  - destruct (Ascii.eqb a c) eqn:Hac.
    + constructor; [reflexivity | exact IH].
    + destruct (JS.split c s) as [|p ps]; [repeat constructor; cbn; now rewrite Hac|].
      apply Forall_cons in IH as [Hp Hps]. constructor; [|exact Hps].
      unfold free_of in *. cbn. now rewrite Hac, Hp.
Qed.

Lemma part_free c s (i : nat) : free_of c (JS.at_ (JS.split c s) i) = true.
Proof.
  unfold JS.at_. destruct (JS.split c s !! i) as [p|] eqn:Hp; [|reflexivity].
  pose proof (split_parts_free c s) as Hall.
  rewrite Forall_lookup in Hall. exact (Hall i p Hp).
Qed.

Lemma display_name_clean (w : string) :
  free_of "/" (extractDisplayNameFromWikilink w) = true
  /\ free_of "|" (extractDisplayNameFromWikilink w) = true.
Proof.
  unfold extractDisplayNameFromWikilink.
  set (parts := JS.split "|" _).
  set (mainPart := if (1 <? length parts)%nat then _ else _).
  assert (Hmain : free_of "|" mainPart = true).
  { subst mainPart. destruct (1 <? length parts)%nat; apply part_free. }
  destruct (after_last_slash mainPart) as (Hslash & dir & Heq & _).
  split; [exact Hslash|].
  rewrite Heq in Hmain at 1. now apply free_of_append in Hmain as [_ ?].
Qed.

Lemma internal_path_clean (w : string) :
  free_of "|" (extractInternalPathFromWikilink w) = true
  /\ free_of "#" (extractInternalPathFromWikilink w) = true
  /\ free_of "^" (extractInternalPathFromWikilink w) = true.
Proof.
  unfold extractInternalPathFromWikilink.
  set (lhs := JS.at_ (JS.split "|" _) 0).
  assert (Hlhs : free_of "|" lhs = true) by apply part_free.
  set (p1 := JS.at_ (JS.split "#" lhs) 0).
  destruct (split_head "#" lhs) as (Hh & suf1 & Hl & _). fold p1 in Hh, Hl.
  destruct (split_head "^" p1) as (Hb & suf2 & Hp1 & _).
  set (p := JS.at_ (JS.split "^" p1) 0) in *.
  rewrite Hp1 in Hh. apply free_of_append in Hh as [Hhp _].
  rewrite Hl, Hp1 in Hlhs.
  apply free_of_append in Hlhs as [Hlhs _].
  apply free_of_append in Hlhs as [Hlhs _]. auto.
Qed.

(** X17: whatever string is parsed, the display name holds no [/] and no [|], and
    the resolvable path holds no [|], no [#] and no [^]. *)
Theorem parsed_parts_hold_no_delimiter (w : string) :
  free_of "/" (extractDisplayNameFromWikilink w) = true
  /\ free_of "|" (extractDisplayNameFromWikilink w) = true
  /\ free_of "|" (extractInternalPathFromWikilink w) = true
  /\ free_of "#" (extractInternalPathFromWikilink w) = true
  /\ free_of "^" (extractInternalPathFromWikilink w) = true.
Proof.
  destruct (display_name_clean w) as [H1 H2].
  destruct (internal_path_clean w) as (H3 & H4 & H5). auto.
Qed.

Lemma internal_path_of_clean (p : string) :
  free_of "|" p = true -> free_of "#" p = true -> free_of "^" p = true ->
  extractInternalPathFromWikilink ("[[" +:+ p +:+ "]]") = p.
Proof.
  intros H1 H2 H3. unfold extractInternalPathFromWikilink.
  rewrite substring_wrapped, (split_free _ _ H1).
  change (JS.at_ [p] 0) with p. rewrite (split_free _ _ H2).
  change (JS.at_ [p] 0) with p. now rewrite (split_free _ _ H3).
Qed.

Lemma display_name_of_clean (d : string) :
  free_of "|" d = true -> free_of "/" d = true ->
  extractDisplayNameFromWikilink ("[[" +:+ d +:+ "]]") = d.
Proof.
  intros H1 H2. unfold extractDisplayNameFromWikilink.
  rewrite substring_wrapped, (split_free _ _ H1).
  cbn [length Nat.ltb Nat.leb]. change (JS.at_ [d] 0) with d.
  unfold JS.lastIndexOf. now rewrite lastIndexOf_from_free.
Qed.

(** X18: parsing is stable: the resolvable path of any parsed string, written
    again as a link, parses to itself, and so does the display name. *)
Theorem reparsing_is_stable (w : string) :
  let p := extractInternalPathFromWikilink w in
  let d := extractDisplayNameFromWikilink w in
  extractInternalPathFromWikilink ("[[" +:+ p +:+ "]]") = p
  /\ extractDisplayNameFromWikilink ("[[" +:+ d +:+ "]]") = d.
Proof.
  cbv zeta.
  destruct (display_name_clean w) as [H1 H2].
  destruct (internal_path_clean w) as (H3 & H4 & H5).
  split; [now apply internal_path_of_clean | now apply display_name_of_clean].
Qed.

Lemma split_head_cons c a s :
  JS.at_ (JS.split c (String a s)) 0
  = if Ascii.eqb a c then "" else String a (JS.at_ (JS.split c s) 0).
Proof.
  cbn [JS.split]. destruct (Ascii.eqb a c); [reflexivity|].
  destruct (JS.split c s) as [|p ps] eqn:Hs; [|reflexivity].
  now contradiction (split_nonempty c s).
Qed.

(** X19: the resolvable path of [[[bare]]] is empty exactly when [bare] is empty
    or begins with [|], [#] or [^]; a link to a heading, such as
    [[[#Heading]]], passes the link check and resolves the empty path. *)
Theorem internal_path_empty_iff (bare : string) :
  (extractInternalPathFromWikilink ("[[" +:+ bare +:+ "]]") = ""
   <-> bare = ""
       \/ exists c rest, bare = String c rest
            /\ (c = "|"%char \/ c = "#"%char \/ c = "^"%char))
  /\ (forall c rest,
        bare = String c rest -> c = "#"%char \/ c = "^"%char ->
        all_units (fun x => negb (JS.is_line_terminator x)) rest = true ->
        isWikilinkEntry (JString ("[[" +:+ bare +:+ "]]")) = true).
Proof.
  split.
  - unfold extractInternalPathFromWikilink. rewrite substring_wrapped.
    destruct bare as [|c rest].
    + split; [now left | reflexivity].
    + rewrite split_head_cons.
      destruct (Ascii.eqb_spec c "|") as [-> | Hp].
      { split; [|reflexivity]. intros _. right. eauto. }
      rewrite split_head_cons.
      destruct (Ascii.eqb_spec c "#") as [-> | Hh].
      { split; [|reflexivity]. intros _. right. eauto 6. }
      rewrite split_head_cons.
      destruct (Ascii.eqb_spec c "^") as [-> | Hb].
      { split; [|reflexivity]. intros _. right. eauto 6. }
      split; [discriminate|].
      intros [H | (c' & r & [= <- <-] & [-> | [-> | ->]])]; congruence.
  - intros c rest -> Hc Hrest. cbn [isWikilinkEntry].
    apply test_lang, lang_wikilinkPattern. exists (String c rest).
    split; [reflexivity|]. split; [discriminate|].
    cbn [all_units]. rewrite Hrest. destruct Hc as [-> | ->]; reflexivity.
Qed.

(* ===================================================================== *)
(** * The settings                                                        *)
(* ===================================================================== *)

Section SettingsFacts.
Import settingsTab.

Lemma trimStart_split (s : string) :
  exists lead, s = lead +:+ trimStart s /\ all_units is_whitespace lead = true.
Proof.
  induction s as [|c s (lead & Heq & Hws)]; cbn [trimStart].
  - exists "". auto.
  - destruct (is_whitespace c) eqn:Hc.
    + exists (String c lead). unfold_append. rewrite <- Heq.
      cbn [all_units]. rewrite Hc, Hws. auto.
    + exists "". auto.
Qed.

Lemma trimStart_head (s : string) :
  trimStart s = ""
  \/ exists c rest, trimStart s = String c rest /\ is_whitespace c = false.
Proof.
  induction s as [|c s IH]; cbn [trimStart]; [now left|].
  destruct (is_whitespace c) eqn:Hc; [exact IH | right; eauto].
Qed.

Lemma trimEnd_split (s : string) :
  exists trail, s = trimEnd s +:+ trail /\ all_units is_whitespace trail = true.
Proof.
  induction s as [|c s (trail & Heq & Hws)]; cbn [trimEnd].
  - exists "". auto.
  - destruct (trimEnd s) as [|x t] eqn:Ht.
    + rewrite append_nil_l in Heq. subst trail.
      destruct (is_whitespace c) eqn:Hc.
      * exists (String c s). unfold_append.
        cbn [all_units]. rewrite Hc, Hws. auto.
      * exists s. unfold_append. auto.
    + exists trail. unfold_append. rewrite append_cons_l in Heq.
      now rewrite <- Heq.
Qed.

Lemma trimEnd_idempotent (s : string) : trimEnd (trimEnd s) = trimEnd s.
Proof.
  induction s as [|c s IH]; cbn [trimEnd]; [reflexivity|].
  destruct (trimEnd s) as [|x t] eqn:Ht.
  - destruct (is_whitespace c) eqn:Hc; cbn [trimEnd]; [reflexivity|].
    now rewrite Hc.
  - cbn [trimEnd] in IH |- *. now rewrite IH.
Qed.

Lemma trimEnd_keeps_head (c : ascii) (s : string) :
  is_whitespace c = false -> trimEnd (String c s) = String c (trimEnd s).
Proof.
  intros Hc. cbn [trimEnd]. destruct (trimEnd s); [now rewrite Hc | reflexivity].
Qed.

Lemma trim_trimmed (s : string) : trimmed_form (trim s).
Proof.
  unfold trimmed_form, trim. split; [|apply trimEnd_idempotent].
  destruct (trimStart_head s) as [-> | (c & rest & -> & Hc)]; [reflexivity|].
  rewrite (trimEnd_keeps_head _ _ Hc). cbn [trimStart]. now rewrite Hc.
Qed.

Lemma trim_split (s : string) :
  exists lead trail,
    s = lead +:+ trim s +:+ trail
    /\ all_units is_whitespace lead = true
    /\ all_units is_whitespace trail = true.
Proof.
  destruct (trimStart_split s) as (lead & Hs & Hlead).
  destruct (trimEnd_split (trimStart s)) as (trail & Ht & Htrail).
  exists lead, trail. unfold trim. rewrite <- Ht. auto.
Qed.

Lemma trim_whitespace_only (s : string) :
  all_units is_whitespace s = true -> trim s = "".
Proof.
  unfold trim. induction s as [|c s IH]; cbn [all_units trimStart];
    [reflexivity|].
  intros [Hc Hs]%andb_true_iff. rewrite Hc. auto.
Qed.

(** X20: a change of the text field stores the value without the whitespace
    around it, or the default name ["parents"] when nothing else is left; the
    stored name is never empty and carries no whitespace at either end; the
    change is saved at once, so that loading the settings again changes
    nothing. *)
Theorem onChange_normalises_and_saves (value : string) (p : Plugin) :
  let p' := onChange value p in
  let key := topicProperty (settings p') in
  key <> ""
  /\ trimmed_form key
  /\ (exists lead trail,
        value = lead +:+ trim value +:+ trail
        /\ all_units is_whitespace lead = true
        /\ all_units is_whitespace trail = true
        /\ key = (if String.eqb (trim value) "" then "parents" else trim value))
  /\ (all_units is_whitespace value = true -> key = "parents")
  /\ data p' = Some (settings p')
  /\ loadSettings p' = p'.
Proof.
  cbv zeta. unfold onChange, saveSettings, loadSettings.
  cbn [settings data topicProperty DEFAULT_SETTINGS].
  destruct (String.eqb_spec (trim value) "") as [Hempty | Hne].
  - split; [discriminate|]. split; [split; reflexivity|]. split.
    + destruct (trim_split value) as (lead & trail & Heq & Hl & Ht).
      exists lead, trail. auto.
    + auto.
  - split; [exact Hne|]. split; [apply trim_trimmed|]. split.
    + destruct (trim_split value) as (lead & trail & Heq & Hl & Ht).
      exists lead, trail. auto.
    + split; [|auto]. intros Hws. now rewrite trim_whitespace_only in Hne.
Qed.

Lemma onload_data_id (p : Plugin) :
  data p = None \/ data p = Some (settings p) ->
  (data p = None -> settings p = DEFAULT_SETTINGS) ->
  onload (data p) = p.
Proof.
  unfold onload, loadSettings. destruct p as [[key] d]. cbn.
  intros [-> | ->] Hdef; [now rewrite Hdef | reflexivity].
Qed.

(** X21: the settings survive a restart: on a vault with nothing saved the plugin
    starts with the field name ["parents"]; and after [onload] and any number
    of changes of the text field, loading again from what was saved gives the
    plugin the settings it has. *)
Theorem settings_survive_restart (stored : option JumpTopicNoteSettings)
    (values : list string) :
  let p := fold_left (fun q value => onChange value q) values (onload stored) in
  settings (onload None) = DEFAULT_SETTINGS
  /\ topicProperty (settings (onload None)) = "parents"
  /\ onload (data p) = p.
Proof.
  cbv zeta. split; [reflexivity|]. split; [reflexivity|].
  apply onload_data_id;
    induction values as [|value values IH] using rev_ind;
    rewrite ?fold_left_app; cbn [fold_left]; auto.
  - unfold onload, loadSettings. cbn. destruct stored as [[key]|]; auto.
  - unfold onload, loadSettings. cbn. destruct stored; [discriminate|reflexivity].
  - discriminate.
Qed.

End SettingsFacts.

(* ===================================================================== *)
(** * The sample vault: further instances                                 *)
(* ===================================================================== *)

Lemma arrow_down_full_cycle_witness :
  let m := run [MouseOver 1%nat] sample_modal in
  isOpen m = true
  /\ activeIndex (run (replicate 3 (KeyDown ArrowDown)) m) = navigation_base m.
Proof.
  cbv zeta. split; [reflexivity|].
  exact (proj1 (arrow_down_full_cycle
                  [sample_A; sample_B; sample_C] (callback sample_modal)
                  "Select superior topic note" [MouseOver 1%nat]
                  eq_refl ltac:(discriminate))).
Defined.

Lemma arrow_up_undoes_arrow_down_witness :
  let m := run [KeyDown ArrowDown; KeyDown ArrowDown] sample_modal in
  isOpen m = true
  /\ activeIndex (run [KeyDown ArrowDown; KeyDown ArrowUp] m) = navigation_base m.
Proof.
  cbv zeta. split; [reflexivity|].
  exact (proj1 (arrow_up_undoes_arrow_down
                  [sample_A; sample_B; sample_C] (callback sample_modal)
                  "Select superior topic note"
                  [KeyDown ArrowDown; KeyDown ArrowDown]
                  eq_refl ltac:(discriminate))).
Defined.

Lemma hover_then_arrow_up_witness :
  let m := run [KeyDown ArrowDown] sample_modal in
  isOpen m = true
  /\ activeIndex (run [MouseOver 0%nat; KeyDown ArrowUp] m) = (0 - 1 + 3) mod 3.
Proof.
  cbv zeta. split; [reflexivity|].
  exact (proj1 (hover_then_arrow_up
                  [sample_A; sample_B; sample_C] (callback sample_modal)
                  "Select superior topic note" [KeyDown ArrowDown] 0
                  eq_refl ltac:(simpl; lia))).
Defined.

Lemma pointer_leave_clears_highlight_witness :
  let m := run [KeyDown ArrowDown; MouseOver 2%nat] sample_modal in
  isOpen m = true
  /\ highlighted m = [2%nat]
  /\ highlighted (dispatch m (MouseLeave 2%nat)) = [].
Proof.
  cbv zeta. split; [reflexivity|]. split; [reflexivity|].
  exact (proj1 (pointer_leave_clears_highlight
                  [sample_A; sample_B; sample_C] (callback sample_modal)
                  "Select superior topic note"
                  [KeyDown ArrowDown; MouseOver 2%nat] 2
                  eq_refl ltac:(simpl; lia))).
Defined.

Lemma pointer_enter_sets_highlight_only_witness :
  let m := run [KeyDown ArrowDown] sample_modal in
  isOpen m = true
  /\ highlighted (dispatch m (MouseOver 2%nat)) = [2%nat].
Proof.
  cbv zeta. split; [reflexivity|].
  exact (proj1 (pointer_enter_sets_highlight_only
                  [sample_A; sample_B; sample_C] (callback sample_modal)
                  "Select superior topic note" [KeyDown ArrowDown] 2
                  eq_refl ltac:(simpl; lia))).
Defined.

Lemma single_item_rehighlights_itself_witness :
  let m := run [MouseOver 0%nat]
               (open (new [sample_A] (callback sample_modal) "one")) in
  isOpen m = true /\ activeIndex (keydown ArrowUp m) = 0.
Proof.
  cbv zeta. split; [reflexivity|].
  exact (proj1 (single_item_rehighlights_itself
                  sample_A (callback sample_modal) "one" [MouseOver 0%nat]
                  ArrowUp eq_refl (or_introl eq_refl))).
Defined.

Lemma closed_modal_ignores_events_witness :
  let m := run [KeyDown ArrowDown; KeyDown Enter] sample_modal in
  isOpen m = false /\ dispatch m (Click 0%nat) = m.
Proof.
  cbv zeta. split; [reflexivity|].
  exact (closed_modal_ignores_events
           [sample_A; sample_B; sample_C] (callback sample_modal)
           "Select superior topic note"
           [KeyDown ArrowDown; KeyDown Enter] (Click 0%nat) eq_refl).
Defined.

Lemma reopen_starts_afresh_witness :
  let m := run [KeyDown ArrowDown; KeyDown Enter] sample_modal in
  isOpen m = false
  /\ calls m = [sample_B]
  /\ open m = set_calls [sample_B] sample_modal.
Proof.
  cbv zeta. split; [reflexivity|]. split; [reflexivity|].
  exact (reopen_starts_afresh
           [sample_A; sample_B; sample_C] (callback sample_modal)
           "Select superior topic note"
           [KeyDown ArrowDown; KeyDown Enter] eq_refl).
Defined.

Lemma invalid_entries_logged_in_order_witness :
  let field := JArray [JNumber 7; JString "[[A]]"; JString "plain text"] in
  invalid_entries [JNumber 7; JString "[[A]]"; JString "plain text"]
  = [JNumber 7; JString "plain text"]
  /\ executeJumpLogic (sample_app field) DEFAULT_SETTINGS
     = mkOutcome
         [ ConsoleError (LogInvalidEntry "parents" (JNumber 7) "child");
           ConsoleError (LogInvalidEntry "parents" (JString "plain text") "child");
           Notice (NoticeInvalidEntries "parents") ]
         None.
Proof.
  cbv zeta. split; [reflexivity|].
  apply (invalid_entries_logged_in_order
           (sample_app (JArray [JNumber 7; JString "[[A]]"; JString "plain text"]))
           DEFAULT_SETTINGS sample_file
           {| frontmatter :=
                Some {[ "parents" :=
                          JArray [JNumber 7; JString "[[A]]"; JString "plain text"] ]} |}
           {[ "parents" := JArray [JNumber 7; JString "[[A]]"; JString "plain text"] ]}
           [JNumber 7; JString "[[A]]"; JString "plain text"]);
    [reflexivity | reflexivity | reflexivity | reflexivity | discriminate
    | repeat constructor].
Defined.

Lemma non_list_field_reports_error_witness :
  executeJumpLogic (sample_app (JObject [("a", JNull)])) DEFAULT_SETTINGS
  = mkOutcome
      [ Notice (NoticeNotAList "parents" "child");
        ConsoleError (LogNotAList "parents" "notes/child.md"
                                  (JObject [("a", JNull)])) ]
      None.
Proof.
  apply (non_list_field_reports_error
           (sample_app (JObject [("a", JNull)])) DEFAULT_SETTINGS sample_file
           {| frontmatter := Some {[ "parents" := JObject [("a", JNull)] ]} |}
           {[ "parents" := JObject [("a", JNull)] ]} (JObject [("a", JNull)]));
    try reflexivity; try discriminate.
Defined.

Lemma no_front_matter_is_noop_witness :
  let app := {| getActiveFile := Some sample_file;
                getFileCache := fun _ => Some {| frontmatter := None |};
                getFirstLinkpathDest := fun _ _ => None;
                openFile := fun _ => true |} in
  executeJumpLogic app DEFAULT_SETTINGS = mkOutcome [] None.
Proof.
  cbv zeta.
  apply (no_front_matter_is_noop
           {| getActiveFile := Some sample_file;
              getFileCache := fun _ => Some {| frontmatter := None |};
              getFirstLinkpathDest := fun _ _ => None;
              openFile := fun _ => true |} DEFAULT_SETTINGS).
  right. exists sample_file. split; [reflexivity|].
  right. exists {| frontmatter := None |}. split; reflexivity.
Defined.
